(** * go-git object model: tree codec, entry index, path resolver, iterators

    A shallow embedding of the package's tree source (Tree, TreeEntry,
    TreeIter), of [file.go] and of the contracts of [core/storage.go].
    Go strings and byte slices are Rocq [string]s (sequences of 8-bit
    characters), [os.FileMode] is a 32-bit unsigned integer carried in [Z],
    mutable receivers are passed and returned explicitly, and every Go
    [error] result is an [option error] or a sum. *)

From Stdlib Require Import ZArith Lia Ascii String List.
From stdpp Require Import base option list gmap strings.

Local Open Scope Z_scope.

(* stdpp blocks [simpl] on string append; the proofs below compute with it. *)
#[local] Arguments String.append !_ _ / : simpl nomatch.

(* ===================================================================== *)
(** ** Errors *)

(** The error values the package compares by identity, plus [ErrOther] for
    any error produced by a storage backend or a callback. *)
Inductive error : Type :=
  | EOF                    (* io.EOF *)
  | ErrUnexpectedEOF       (* io.ErrUnexpectedEOF *)
  | ErrSyntax              (* strconv.ErrSyntax *)
  | ErrRange               (* strconv.ErrRange *)
  | ErrStop                (* core.ErrStop *)
  | ErrObjectNotFound      (* core.ErrObjectNotFound *)
  | ErrUnsupportedObject
  | ErrMaxTreeDepth
  | ErrFileNotFound
  | errDirNotFound
  | errEntryNotFound
  | ErrOther (msg : string).

#[global] Instance error_eq_dec : EqDecision error.
Proof. solve_decision. Defined.

(** The test [err != nil && err != io.EOF]: the error to return, if any. *)
Definition failing (err : option error) : option error :=
  match err with
  | Some e => if decide (e = EOF) then None else Some e
  | None => None
  end.

(* ===================================================================== *)
(** ** Byte-string helpers *)

Definition NUL : ascii := Ascii.zero.
Definition SP : ascii := " "%char.
Definition LF : ascii := "010"%char.

(** [s[:len(s)-1]] for a non-empty [s]. *)
Fixpoint dropLast (s : string) : string :=
  match s with
  | EmptyString => EmptyString
  | String c EmptyString => EmptyString
  | String c r => String c (dropLast r)
  end.

(** [bufio.Reader.ReadString(delim)] on the unread input [s]: the bytes up to
    and including the first [delim], the input left, and [io.EOF] when the
    input ends before a delimiter is seen. *)
Fixpoint ReadString (delim : ascii) (s : string) : string * string * option error :=
  match s with
  | EmptyString => (EmptyString, EmptyString, Some EOF)
  | String c r =>
      if Ascii.eqb c delim then (String c EmptyString, r, None)
      else let '(a, rest, e) := ReadString delim r in (String c a, rest, e)
  end.

(** The first [n] bytes of [s] and the rest, if [s] has that many. *)
Fixpoint splitAt (n : nat) (s : string) : option (string * string) :=
  match n with
  | O => Some (EmptyString, s)
  | S n' =>
      match s with
      | EmptyString => None
      | String c r =>
          match splitAt n' r with
          | Some (a, b) => Some (String c a, b)
          | None => None
          end
      end
  end.

(** [io.ReadFull(r, buf)] with [len(buf) = n]: [io.EOF] when no byte could
    be read, [io.ErrUnexpectedEOF] when the input ends inside the buffer. *)
Definition ReadFull (n : nat) (s : string) : error + (string * string) :=
  match splitAt n s with
  | Some (buf, rest) => inr (buf, rest)
  | None => if decide (s = EmptyString) then inl EOF else inl ErrUnexpectedEOF
  end.

(* ===================================================================== *)
(** ** strconv.ParseInt(s, 8, 32) and fmt's %o *)

Definition maxUint32 : Z := 2 ^ 32 - 1.

Definition octDigit (c : ascii) : option Z :=
  let n := Z.of_nat (nat_of_ascii c) in
  if decide (48 ≤ n ∧ n ≤ 55) then Some (n - 48) else None.

(** The digit loop of [strconv.ParseUint(s, 8, 32)]: a byte that is not an
    octal digit is a syntax error, a value above [maxUint32] a range error,
    whichever comes first from the left. *)
Fixpoint parseDigits (n : Z) (s : string) : error + Z :=
  match s with
  | EmptyString => inr n
  | String c r =>
      match octDigit c with
      | None => inl ErrSyntax
      | Some d =>
          let n1 := n * 8 + d in
          if decide (maxUint32 < n1) then inl ErrRange else parseDigits n1 r
      end
  end.

Definition ParseUint8_32 (s : string) : error + Z :=
  match s with
  | EmptyString => inl ErrSyntax
  | _ => parseDigits 0 s
  end.

(** [strconv.ParseInt(s, 8, 32)]: an optional sign, then [ParseUint], then
    the check against the signed 32-bit range.  The results are Go's pair
    of a value and an error: [0] with a syntax error, the nearest bound
    with a range error. *)
Definition ParseInt8_32 (s : string) : Z * option error :=
  match s with
  | EmptyString => (0, Some ErrSyntax)
  | String c r =>
      let neg := Ascii.eqb c "-"%char in
      let body := if Ascii.eqb c "+"%char || neg then r else s in
      let checked (un : Z) : Z * option error :=
        let cutoff := 2 ^ 31 in
        if negb neg && bool_decide (cutoff ≤ un) then (cutoff - 1, Some ErrRange)
        else if neg && bool_decide (cutoff < un) then (- cutoff, Some ErrRange)
        else (if neg then - un else un, None) in
      match ParseUint8_32 body with
      | inl ErrRange => checked maxUint32
      | inl e => (0, Some e)
      | inr un => checked un
      end
  end.

Definition digitChar (d : Z) : ascii := ascii_of_nat (Z.to_nat (48 + d)).

(** Octal digits of [n], most significant first, in front of [acc]. *)
Fixpoint fmtOctalAux (fuel : nat) (n : Z) (acc : string) : string :=
  match fuel with
  | O => acc
  | S f =>
      if decide (n < 8) then String (digitChar n) acc
      else fmtOctalAux f (n / 8) (String (digitChar (n mod 8)) acc)
  end.

(** [fmt.Sprintf("%o", m)] for a uint32 [m] (at most 11 digits). *)
Definition fmtOctal (n : Z) : string := fmtOctalAux 11 n EmptyString.

(* ===================================================================== *)
(** ** os.FileMode *)

Definition FileMode := Z.

Definition ModeDir : FileMode := Z.shiftl 1 31.
Definition ModeSymlink : FileMode := Z.shiftl 1 27.
Definition ModeNamedPipe : FileMode := Z.shiftl 1 25.
Definition ModeSocket : FileMode := Z.shiftl 1 24.
Definition ModeDevice : FileMode := Z.shiftl 1 26.
Definition ModeCharDevice : FileMode := Z.shiftl 1 21.
Definition ModeIrregular : FileMode := Z.shiftl 1 19.
Definition ModePerm : FileMode := 511. (* 0777 *)

(** The mask of the type bits; a mode with none of them is a regular file. *)
Definition ModeType : FileMode :=
  Z.lor ModeDir (Z.lor ModeSymlink (Z.lor ModeNamedPipe (Z.lor ModeSocket
    (Z.lor ModeDevice (Z.lor ModeCharDevice ModeIrregular))))).

Definition IsDir (m : FileMode) : bool := negb (Z.land m ModeDir =? 0).
Definition IsSymlink (m : FileMode) : bool := negb (Z.land m ModeSymlink =? 0).
Definition IsRegular (m : FileMode) : bool := Z.land m ModeType =? 0.
Definition Perm (m : FileMode) : FileMode := Z.land m ModePerm.

(** The conversion [os.FileMode(fm)] of an int64 to uint32. *)
Definition toFileMode (fm : Z) : FileMode := fm mod 2 ^ 32.

(** [Tree.decodeFileMode]. *)
Definition decodeFileMode (mode : string) : FileMode * option error :=
  let '(fm, err) := ParseInt8_32 mode in
  match failing err with
  | Some e => (0, Some e)
  | None =>
      let md := toFileMode fm in
      if decide (fm = 16384) then (Z.lor md ModeDir, None)          (* 0040000 *)
      else if decide (fm = 40960) then (Z.lor md ModeSymlink, None) (* 0120000 *)
      else (md, None)
  end.

(* ===================================================================== *)
(** ** core.Hash, core.ObjectType, core.Object *)

(** [core.Hash] is a [[20]byte]; a well-formed hash has exactly 20 bytes. *)
Definition Hash := string.
Definition hashSize : nat := 20.
Definition wfHash (h : Hash) : Prop := String.length h = hashSize.

Inductive ObjectType : Type :=
  | CommitObject | TreeObject | BlobObject | TagObject.

#[global] Instance ObjectType_eq_dec : EqDecision ObjectType.
Proof. solve_decision. Defined.

(** The [core.Object] capability: a kind, a declared size, a body reached
    through [Reader()] and extended through [Writer()], either of which may
    fail, and a [Hash()] computed by the object from its kind and body. *)
Record Object : Type := mkObject {
  oType : ObjectType;
  oSize : Z;
  oBody : string;
  oHasher : ObjectType → string → Hash;
  oReaderErr : option error;   (* error of Reader(), if any *)
  oCloseErr : option error;    (* error of the reader's Close(), if any *)
  oWriterErr : option error    (* error of Writer(), if any *)
}.

Definition ObjHash (o : Object) : Hash := oHasher o (oType o) (oBody o).

Definition SetType (o : Object) (k : ObjectType) : Object :=
  mkObject k (oSize o) (oBody o) (oHasher o) (oReaderErr o) (oCloseErr o) (oWriterErr o).

Definition SetSize (o : Object) (n : Z) : Object :=
  mkObject (oType o) n (oBody o) (oHasher o) (oReaderErr o) (oCloseErr o) (oWriterErr o).

(** Bytes written through the object's writer are appended to its body. *)
Definition WriteBytes (o : Object) (bs : string) : Object :=
  mkObject (oType o) (oSize o) (oBody o +:+ bs) (oHasher o)
           (oReaderErr o) (oCloseErr o) (oWriterErr o).

(** [ObjectStorage.NewObject()]: an empty, writable object. *)
Definition NewObject (hasher : ObjectType → string → Hash) : Object :=
  mkObject BlobObject 0 EmptyString hasher None None None.

(* ===================================================================== *)
(** ** TreeEntry and Tree *)

Record TreeEntry : Type := mkTreeEntry {
  Name : string;
  Mode : FileMode;
  EHash : Hash
}.

#[global] Instance TreeEntry_eq_dec : EqDecision TreeEntry.
Proof. solve_decision. Defined.

(** [Tree]: the entry list, the hash, and the lazily built index [m]
    ([None] is Go's nil map).  The map's values are pointers into
    [Entries]; no function of the package writes through them or updates
    an entry in place, so the index holds the entries themselves. *)
Record Tree : Type := mkTree {
  Entries : list TreeEntry;
  THash : Hash;
  m : option (gmap string TreeEntry)
}.

(** A fresh [&Tree{}]. *)
Definition emptyTree : Tree := mkTree [] EmptyString None.

(* ===================================================================== *)
(** ** Tree.Decode *)

(** One run of the record loop of [Tree.Decode] over the unread input [r];
    [None] only when the fuel runs out. *)
Fixpoint decodeLoop (fuel : nat) (r : string) (acc : list TreeEntry)
  : option (list TreeEntry * option error) :=
  match fuel with
  | O => None
  | S fuel' =>
      let '(mode, r1, e1) := ReadString SP r in
      match e1 with
      | Some e => if decide (e = EOF) then Some (acc, None) else Some (acc, Some e)
      | None =>
          let '(fm, e) := decodeFileMode (dropLast mode) in
          match failing e with
          | Some e => Some (acc, Some e)
          | None =>
              let '(name, r2, e2) := ReadString NUL r1 in
              match failing e2 with
              | Some e => Some (acc, Some e)
              | None =>
                  match ReadFull hashSize r2 with
                  | inl e => Some (acc, Some e)
                  | inr (hash, r3) =>
                      decodeLoop fuel' r3
                        (acc ++ [mkTreeEntry (dropLast name) fm hash])
                  end
              end
          end
      end
  end.

(** What a call of [Tree.Decode] leaves behind: the receiver, the returned
    error, and whether [o.Reader()] was called. *)
Record DecodeOut : Type := mkDecodeOut {
  dTree : Tree;
  dErr : option error;
  dOpened : bool
}.

(** [checkClose(c, &err)]: a close error is reported only when no error
    was set before. *)
Definition checkClose (cerr err : option error) : option error :=
  match err with
  | Some e => Some e
  | None => cerr
  end.

(** [Tree.Decode]: an object of another kind is refused first; the hash is
    taken over; an object of size zero ends the call there; otherwise the
    entry list and the index are reset and the records are read until the
    input ends. *)
Definition Decode (t : Tree) (o : Object) : DecodeOut :=
  if decide (oType o ≠ TreeObject) then mkDecodeOut t (Some ErrUnsupportedObject) false
  else
    let t1 := mkTree (Entries t) (ObjHash o) (m t) in
    if decide (oSize o = 0) then mkDecodeOut t1 None false
    else
      let t2 := mkTree [] (ObjHash o) None in
      match oReaderErr o with
      | Some e => mkDecodeOut t2 (Some e) true
      | None =>
          match decodeLoop (S (String.length (oBody o))) (oBody o) [] with
          | Some (es, err) =>
              mkDecodeOut (mkTree es (ObjHash o) None) (checkClose (oCloseErr o) err) true
          | None => mkDecodeOut t2 None true
          end
      end.

(* ===================================================================== *)
(** ** Tree.Encode *)

(** The bytes written for one entry: [fmt.Fprintf(w, "%o %s", Mode, Name)],
    a NUL byte, the raw hash. *)
Definition encodeEntry (e : TreeEntry) : string :=
  fmtOctal (Mode e) +:+ String SP (Name e) +:+ String NUL (EHash e).

Fixpoint encodeEntries (es : list TreeEntry) : string :=
  match es with
  | [] => EmptyString
  | e :: r => encodeEntry e +:+ encodeEntries r
  end.

(** [Tree.Encode]: the result is unnamed, so the deferred [checkClose]
    cannot change it and a close error is dropped. *)
Definition Encode (t : Tree) (o : Object) : Object * option error :=
  let o1 := SetType o TreeObject in
  match oWriterErr o1 with
  | Some e => (o1, Some e)
  | None =>
      let bs := encodeEntries (Entries t) in
      (SetSize (WriteBytes o1 bs) (Z.of_nat (String.length bs)), None)
  end.

(* ===================================================================== *)
(** ** A trace of the effects of the path resolver *)

(** The resolver builds indexes and fetches objects; both are recorded, in
    program order, next to the value a call returns. *)
Inductive event : Type :=
  | EvBuildMap            (* one run of Tree.buildMap *)
  | EvGet (h : Hash).     (* one ObjectStorage.Get(h) *)

#[global] Instance event_eq_dec : EqDecision event.
Proof. solve_decision. Defined.

Definition M (A : Type) : Type := A * list event.

Definition ret {A} (a : A) : M A := (a, []).
Definition bind {A B} (c : M A) (k : A → M B) : M B :=
  let '(a, tr1) := c in let '(b, tr2) := k a in (b, tr1 ++ tr2).
Definition tell (e : event) : M unit := (tt, [e]).

Notation "'letM' x ':=' c 'in' k" := (bind c (λ x, k))
  (at level 10, x name, c at level 100, k at level 200).
Notation "'letM' ' p ':=' c 'in' k" := (bind c (λ x, let 'p := x in k))
  (at level 10, p pattern, c at level 100, k at level 200).

Definition builds (tr : list event) : nat := length (filter (λ e, e = EvBuildMap) tr).
Definition gets (tr : list event) : list Hash :=
  omap (λ e, match e with EvGet h => Some h | _ => None end) tr.

(** [ObjectStorage.Get] of the repository a tree belongs to. *)
Definition ObjectStorage : Type := Hash → error + Object.

Definition Get (s : ObjectStorage) (h : Hash) : M (error + Object) :=
  letM u := tell (EvGet h) in ret (s h).

(* ===================================================================== *)
(** ** The entry index: Tree.buildMap and Tree.entry *)

(** The loop of [buildMap]: entries are inserted in list order, so a later
    entry replaces an earlier one of the same name. *)
Definition indexOf (es : list TreeEntry) : gmap string TreeEntry :=
  foldl (λ mp e, <[Name e := e]> mp) ∅ es.

Definition buildMap (t : Tree) : M Tree :=
  letM u := tell EvBuildMap in
  ret (mkTree (Entries t) (THash t) (Some (indexOf (Entries t)))).

(** [Tree.entry]: the receiver after the call and the entry found. *)
Definition entry (t : Tree) (baseName : string) : M (Tree * (error + TreeEntry)) :=
  letM t1 := (match m t with None => buildMap t | Some _ => ret t end) in
  match m t1 with
  | Some mp =>
      match mp !! baseName with
      | Some e => ret (t1, inr e)
      | None => ret (t1, inl errEntryNotFound)
      end
  | None => ret (t1, inl errEntryNotFound)  (* a nil map has no key *)
  end.

(* ===================================================================== *)
(** ** The path resolver: Tree.dir, Tree.findEntry, Tree.File *)

(** [strings.Split(s, sep)] for a one-byte separator. *)
Fixpoint Split (sep : ascii) (s : string) : list string :=
  match s with
  | EmptyString => [EmptyString]
  | String c r =>
      if Ascii.eqb c sep then EmptyString :: Split sep r
      else match Split sep r with
           | h :: tl => String c h :: tl
           | [] => [String c EmptyString]
           end
  end.

(** [Tree.dir]: the receiver after the call and the subtree, decoded into a
    fresh [&Tree{r: t.r}]; the error of that [Decode] is dropped. *)
Definition dir (s : ObjectStorage) (t : Tree) (baseName : string)
  : M (Tree * (error + Tree)) :=
  letM '(t1, r) := entry t baseName in
  match r with
  | inl _ => ret (t1, inl errDirNotFound)
  | inr e =>
      letM got := Get s (EHash e) in
      match got with
      | inl err =>
          if decide (err = ErrObjectNotFound) then ret (t1, inl errDirNotFound)
          else ret (t1, inl err)
      | inr obj =>
          if decide (oType obj ≠ TreeObject) then ret (t1, inl errDirNotFound)
          else ret (t1, inr (dTree (Decode emptyTree obj)))
      end
  end.

(** The loop of [findEntry] with [pathParts = p :: rest]; [tree] is the
    tree reached so far and is returned as the calls leave it. *)
Fixpoint findEntryLoop (s : ObjectStorage) (tree : Tree) (p : string)
    (rest : list string) : M (Tree * (error + TreeEntry)) :=
  match rest with
  | [] => entry tree p
  | q :: rest' =>
      letM '(tree1, r) := dir s tree p in
      match r with
      | inl err => ret (tree1, inl err)
      | inr sub =>
          letM '(_, r') := findEntryLoop s sub q rest' in
          ret (tree1, r')
      end
  end.

(** [Tree.findEntry].  [strings.Split] never returns an empty slice; the
    first branch stands for the index panic Go would raise if it did. *)
Definition findEntry (s : ObjectStorage) (t : Tree) (path : string)
  : M (Tree * (error + TreeEntry)) :=
  match Split "/"%char path with
  | [] => ret (t, inl (ErrOther "index out of range"))
  | p :: rest => findEntryLoop s t p rest
  end.

(** Modelled from the spec: the source of Blob is not among the sources.  A Blob is
    opaque byte content reachable via a readable stream: it keeps the
    object it was decoded from, with its hash and size. *)
Record Blob : Type := mkBlob {
  BHash : Hash;
  BSize : Z;
  bObj : Object
}.

Definition Blob_Decode (o : Object) : Blob := mkBlob (ObjHash o) (oSize o) o.

Record File : Type := mkFile {
  FName : string;
  FMode : FileMode;
  FBlob : Blob
}.

Definition newFile (name : string) (fm : FileMode) (b : Blob) : File :=
  mkFile name fm b.

(** [Tree.File]. *)
Definition Tree_File (s : ObjectStorage) (t : Tree) (path : string)
  : M (Tree * (error + File)) :=
  letM '(t1, r) := findEntry s t path in
  match r with
  | inl _ => ret (t1, inl ErrFileNotFound)
  | inr e =>
      letM got := Get s (EHash e) in
      match got with
      | inl err =>
          if decide (err = ErrObjectNotFound) then ret (t1, inl ErrFileNotFound)
          else ret (t1, inl err)
      | inr obj =>
          if decide (oType obj ≠ BlobObject) then ret (t1, inl ErrFileNotFound)
          else ret (t1, inr (newFile path (Mode e) (Blob_Decode obj)))
      end
  end.

(* ===================================================================== *)
(** ** File.Contents and File.Lines *)

(** [File.Contents]: the named results [(content, err)]; the deferred
    [checkClose] may still set [err] after the content was returned. *)
Definition Contents (f : File) : string * option error :=
  let o := bObj (FBlob f) in
  match oReaderErr o with
  | Some e => (EmptyString, Some e)
  | None => (oBody o, checkClose (oCloseErr o) None)
  end.

(** [File.Lines]. *)
Definition Lines (f : File) : error + list string :=
  match Contents f with
  | (_, Some e) => inl e
  | (content, None) =>
      let splits := Split LF content in
      if decide (last splits = Some EmptyString)
      then inr (take (length splits - 1) splits)
      else inr splits
  end.

(* ===================================================================== *)
(** ** treeEntryIter *)

Record treeEntryIter : Type := mkTreeEntryIter {
  it_t : Tree;
  pos : nat
}.

(** [treeEntryIter.Next]: [io.EOF] once [pos >= len(t.Entries)], else the
    entry at [pos], and [pos] moves on. *)
Definition treeEntryIter_Next (iter : treeEntryIter)
  : treeEntryIter * (error + TreeEntry) :=
  match Entries (it_t iter) !! pos iter with
  | None => (iter, inl EOF)
  | Some e => (mkTreeEntryIter (it_t iter) (S (pos iter)), inr e)
  end.

(* ===================================================================== *)
(** ** The tree walker *)

Definition maxTreeDepth : nat := 1024.

(** What the walker hands out for an entry: the decoded object behind the
    entry's hash, which the iterators test for being a Blob or a Tree. *)
Inductive GitObject : Type :=
  | GTree (tr : Tree)
  | GBlob (b : Blob)
  | GOther (o : Object).

Definition WalkItem : Type := string * TreeEntry * GitObject.

(** FileIter and TreeIter use a walker through
    [NewTreeWalker], [Next] and [Close] only; these three operations are the
    interface [WalkerOps], over any walker state [St]. *)
Record WalkerOps (St : Type) : Type := mkWalkerOps {
  wInit : ObjectStorage → Tree → St;
  wStep : ObjectStorage → St → St * (error + WalkItem);
  wRelease : St → St
}.
Arguments wInit {St}.
Arguments wStep {St}.
Arguments wRelease {St}.

(** [TreeWalker]: its traversal state, the fields [r] and [t] that
    [FileIter.ForEach] reads, and the number of [Close] calls so far. *)
Record TreeWalker (St : Type) : Type := mkTreeWalker {
  wSt : St;
  w_r : ObjectStorage;
  w_t : Tree;
  wClosed : nat
}.
Arguments mkTreeWalker {St}.
Arguments wSt {St}.
Arguments w_r {St}.
Arguments w_t {St}.
Arguments wClosed {St}.

Definition NewTreeWalker {St} (ops : WalkerOps St) (r : ObjectStorage) (t : Tree)
  : TreeWalker St :=
  mkTreeWalker (wInit ops r t) r t 0.

Definition TreeWalker_Next {St} (ops : WalkerOps St) (w : TreeWalker St)
  : TreeWalker St * (error + WalkItem) :=
  let '(st, res) := wStep ops (w_r w) (wSt w) in
  (mkTreeWalker st (w_r w) (w_t w) (wClosed w), res).

Definition TreeWalker_Close {St} (ops : WalkerOps St) (w : TreeWalker St)
  : TreeWalker St :=
  mkTreeWalker (wRelease ops (wSt w)) (w_r w) (w_t w) (S (wClosed w)).

(** Modelled from the spec: the walker's source file is not among the
    sources.  A frame is a tree and a cursor into its entries, that is a
    [treeEntryIter], with the path of the tree below the root; the stack's
    head is the top frame. *)
Record Frame : Type := mkFrame {
  fIter : treeEntryIter;
  fBase : string
}.

(** Modelled from the spec: the parent path joined with the entry's name
    using [/]. *)
Definition joinPath (base name : string) : string :=
  if decide (base = EmptyString) then name else base +:+ String "/"%char name.

(** Modelled from the spec: resolving an entry's hash to a concrete object
    through the storage contract. *)
Definition resolve (s : ObjectStorage) (h : Hash) : error + GitObject :=
  match s h with
  | inl e => inl e
  | inr o =>
      match oType o with
      | TreeObject =>
          let d := Decode emptyTree o in
          match dErr d with
          | Some e => inl e
          | None => inr (GTree (dTree d))
          end
      | BlobObject => inr (GBlob (Blob_Decode o))
      | _ => inr (GOther o)
      end
  end.

(** Modelled from the spec: one [Next()] of the walker.  If the top frame
    has entries left, the next one is taken, resolved and yielded; a tree
    gets a new frame, unless the prospective depth exceeds [maxTreeDepth],
    which fails the call.  An exhausted top frame is popped and the call
    retries; an empty stack is the end of the sequence. *)
Fixpoint specNext (s : ObjectStorage) (stack : list Frame)
  : list Frame * (error + WalkItem) :=
  match stack with
  | [] => ([], inl EOF)
  | fr :: below =>
      match treeEntryIter_Next (fIter fr) with
      | (_, inl _) => specNext s below
      | (iter1, inr e) =>
          let stack1 := mkFrame iter1 (fBase fr) :: below in
          match resolve s (EHash e) with
          | inl err => (stack1, inl err)
          | inr obj =>
              let name := joinPath (fBase fr) (Name e) in
              match obj with
              | GTree sub =>
                  if decide (maxTreeDepth < S (length stack1))%nat
                  then (stack1, inl ErrMaxTreeDepth)
                  else (mkFrame (mkTreeEntryIter sub 0) name :: stack1,
                        inr (name, e, obj))
              | _ => (stack1, inr (name, e, obj))
              end
          end
      end
  end.

(** Modelled from the spec: a walker is created bound to one root tree,
    and closing it releases the stack. *)
Definition specWalker : WalkerOps (list Frame) :=
  mkWalkerOps (list Frame)
    (λ _ root, [mkFrame (mkTreeEntryIter root 0) EmptyString]) specNext (λ _, []).

(** Repeated [Next()] until the first error: the items yielded, the error
    that ended the walk and the state left; [None] when the fuel runs out
    first. *)
Fixpoint walk {St} (ops : WalkerOps St) (s : ObjectStorage) (fuel : nat) (st : St)
  : option (list WalkItem * error * St) :=
  match fuel with
  | O => None
  | S fuel' =>
      match wStep ops s st with
      | (st1, inl e) => Some ([], e, st1)
      | (st1, inr x) =>
          match walk ops s fuel' st1 with
          | Some (xs, e, st2) => Some (x :: xs, e, st2)
          | None => None
          end
      end
  end.

(* ===================================================================== *)
(** ** FileIter and TreeIter *)

(** Iterators are used through pointers; a heap maps each address to the
    iterator stored there. *)
Definition loc : Type := nat.

Record FileIter (St : Type) : Type := mkFileIter { fw : TreeWalker St }.
Record TreeIter (St : Type) : Type := mkTreeIter { tw : TreeWalker St }.
Arguments mkFileIter {St}.
Arguments fw {St}.
Arguments mkTreeIter {St}.
Arguments tw {St}.

(** [FileIter.Next]; [None] when [iter] is not allocated or the fuel runs
    out before a blob or an error comes up. *)
Fixpoint FileIter_Next {St} (ops : WalkerOps St) (fuel : nat)
    (h : gmap loc (FileIter St)) (iter : loc)
  : option (gmap loc (FileIter St) * (error + File)) :=
  match fuel with
  | O => None
  | S fuel' =>
      it ← h !! iter;
      let '(w1, res) := TreeWalker_Next ops (fw it) in
      let h1 := <[iter := mkFileIter w1]> h in
      match res with
      | inl err => Some (h1, inl err)
      | inr (name, e, GBlob blob) => Some (h1, inr (newFile name (Mode e) blob))
      | inr _ => FileIter_Next ops fuel' h1 iter
      end
  end.

Definition FileIter_Close {St} (ops : WalkerOps St)
    (h : gmap loc (FileIter St)) (iter : loc) : option (gmap loc (FileIter St)) :=
  it ← h !! iter;
  Some (<[iter := mkFileIter (TreeWalker_Close ops (fw it))]> h).

(** [TreeIter.Next]. *)
Fixpoint TreeIter_Next {St} (ops : WalkerOps St) (fuel : nat)
    (h : gmap loc (TreeIter St)) (iter : loc)
  : option (gmap loc (TreeIter St) * (error + Tree)) :=
  match fuel with
  | O => None
  | S fuel' =>
      it ← h !! iter;
      let '(w1, res) := TreeWalker_Next ops (tw it) in
      let h1 := <[iter := mkTreeIter w1]> h in
      match res with
      | inl err => Some (h1, inl err)
      | inr (_, _, GTree tree) => Some (h1, inr tree)
      | inr _ => TreeIter_Next ops fuel' h1 iter
      end
  end.

Definition TreeIter_Close {St} (ops : WalkerOps St)
    (h : gmap loc (TreeIter St)) (iter : loc) : option (gmap loc (TreeIter St)) :=
  it ← h !! iter;
  Some (<[iter := mkTreeIter (TreeWalker_Close ops (tw it))]> h).

(** The loop shared, word for word, by [FileIter.ForEach] and
    [TreeIter.ForEach]: [next] is the iterator's [Next] on the heap, [cb]
    the callback with its own state. *)
Fixpoint forEachLoop {H A C : Type} (next : H → option (H * (error + A)))
    (cb : C → A → C * option error) (fuel : nat) (h : H) (c : C)
  : option (H * C * option error) :=
  match fuel with
  | O => None
  | S fuel' =>
      '(h1, res) ← next h;
      match res with
      | inl err => Some (h1, c, if decide (err = EOF) then None else Some err)
      | inr x =>
          match cb c x with
          | (c1, Some err) =>
              Some (h1, c1, if decide (err = ErrStop) then None else Some err)
          | (c1, None) => forEachLoop next cb fuel' h1 c1
          end
      end
  end.

(** [FileIter.ForEach]: a new iterator [i] over a new walker on the
    receiver's repository and tree is allocated and driven; the deferred
    [i.Close()] runs on every way out of the loop. *)
Definition FileIter_ForEach {St C} (ops : WalkerOps St) (fuel : nat)
    (h : gmap loc (FileIter St)) (iter : loc) (cb : C → File → C * option error) (c : C)
  : option (gmap loc (FileIter St) * C * option error) :=
  it ← h !! iter;
  let i := fresh (dom h) in
  let h0 := <[i := mkFileIter (NewTreeWalker ops (w_r (fw it)) (w_t (fw it)))]> h in
  '(h1, c1, err) ← forEachLoop (λ hp, FileIter_Next ops fuel hp i) cb fuel h0 c;
  h2 ← FileIter_Close ops h1 i;
  Some (h2, c1, err).

(** [TreeIter.ForEach]: the receiver itself is driven and closed. *)
Definition TreeIter_ForEach {St C} (ops : WalkerOps St) (fuel : nat)
    (h : gmap loc (TreeIter St)) (iter : loc) (cb : C → Tree → C * option error) (c : C)
  : option (gmap loc (TreeIter St) * C * option error) :=
  '(h1, c1, err) ← forEachLoop (λ hp, TreeIter_Next ops fuel hp iter) cb fuel h c;
  h2 ← TreeIter_Close ops h1 iter;
  Some (h2, c1, err).

(** The items an iterator produces: repeated [Next] until the first error. *)
Fixpoint drain {H A : Type} (next : H → option (H * (error + A))) (fuel : nat) (h : H)
  : option (list A * error * H) :=
  match fuel with
  | O => None
  | S fuel' =>
      '(h1, res) ← next h;
      match res with
      | inl err => Some ([], err, h1)
      | inr x => '(xs, err, h2) ← drain next fuel' h1; Some (x :: xs, err, h2)
      end
  end.

(** The push-style traversal in the words of the specification: the
    callback is invoked once per item, in order; the stop sentinel ends the
    traversal cleanly, any other failure is propagated unchanged, and an
    exhausted sequence returns cleanly.  [final] is the error that ended
    the sequence. *)
Fixpoint pushAll {A C : Type} (cb : C → A → C * option error) (c : C)
    (items : list A) (final : error) : C * option error :=
  match items with
  | [] => (c, if decide (final = EOF) then None else Some final)
  | x :: rest =>
      match cb c x with
      | (c1, None) => pushAll cb c1 rest final
      | (c1, Some err) => (c1, if decide (err = ErrStop) then None else Some err)
      end
  end.

(** [advanced proj i h h']: between the heaps [h] and [h'] only the
    iterator at [i] moved, and its walker kept its repository, its root
    tree and its count of [Close] calls. *)
Definition advanced {Cell St : Type} (proj : Cell → TreeWalker St) (i : loc)
    (h h' : gmap loc Cell) : Prop :=
  (∀ l, l ≠ i → h' !! l = h !! l)
  ∧ ∃ it it', h !! i = Some it ∧ h' !! i = Some it'
      ∧ w_r (proj it') = w_r (proj it)
      ∧ w_t (proj it') = w_t (proj it)
      ∧ wClosed (proj it') = wClosed (proj it).

(* ===================================================================== *)
(** ** Auxiliary notions used by the statements *)

(** A tree's index as a lookup sees it: the cached map when there is one,
    else the map [buildMap] makes from the entry list. *)
Definition indexView (t : Tree) : gmap string TreeEntry :=
  match m t with
  | Some mp => mp
  | None => indexOf (Entries t)
  end.

(** What a lookup returns for the map's answer. *)
Definition found (r : option TreeEntry) : error + TreeEntry :=
  match r with
  | Some e => inr e
  | None => inl errEntryNotFound
  end.

(** The last entry of the list that carries the name. *)
Definition lastNamed (name : string) (es : list TreeEntry) : option TreeEntry :=
  last (filter (λ e, Name e = name) es).

(** A run of lookups on one tree, one after the other. *)
Fixpoint lookups (t : Tree) (names : list string)
  : M (Tree * list (error + TreeEntry)) :=
  match names with
  | [] => ret (t, [])
  | n :: rest =>
      letM '(t1, r) := entry t n in
      letM '(t2, rs) := lookups t1 rest in
      ret (t2, r :: rs)
  end.

(** Descending from [t] through the segments [segs], in the words of the
    specification: each segment is looked up in the index of the tree
    reached, its object is fetched by the entry's hash and must be of kind
    tree.  The hashes fetched on the way are collected. *)
Inductive descends (s : ObjectStorage) : Tree → list string → list Hash → Tree → Prop :=
  | descends_nil t : descends s t [] [] t
  | descends_cons t seg e obj rest hs t' :
      indexView t !! seg = Some e →
      s (EHash e) = inr obj →
      oType obj = TreeObject →
      descends s (dTree (Decode emptyTree obj)) rest hs t' →
      descends s t (seg :: rest) (EHash e :: hs) t'.

(** The three causes that make a segment fail as a directory. *)
Definition notADirectory (s : ObjectStorage) (t : Tree) (seg : string) : Prop :=
  indexView t !! seg = None
  ∨ (∃ e, indexView t !! seg = Some e ∧ s (EHash e) = inl ErrObjectNotFound)
  ∨ (∃ e obj, indexView t !! seg = Some e ∧ s (EHash e) = inr obj
              ∧ oType obj ≠ TreeObject).

(** Joining with a one-byte separator, the inverse of [Split]. *)
Fixpoint Join (sep : ascii) (parts : list string) : string :=
  match parts with
  | [] => EmptyString
  | [p] => p
  | p :: rest => p +:+ String sep (Join sep rest)
  end.

Fixpoint contains (c : ascii) (s : string) : bool :=
  match s with
  | EmptyString => false
  | String a r => Ascii.eqb a c || contains c r
  end.

(** [s] ends in the byte [c]. *)
Fixpoint endsWith (c : ascii) (s : string) : bool :=
  match s with
  | EmptyString => false
  | String a EmptyString => Ascii.eqb a c
  | String _ r => endsWith c r
  end.

(** Entries the codec carries through a round trip unchanged: a name
    without a NUL byte, a 20-byte hash, and a mode that is an unsigned
    31-bit value other than the two the decoder rewrites. *)
Definition roundTrips (e : TreeEntry) : Prop :=
  contains NUL (Name e) = false
  ∧ wfHash (EHash e)
  ∧ 0 ≤ Mode e < 2 ^ 31
  ∧ Mode e ≠ 16384 ∧ Mode e ≠ 40960.

(** An object whose reader and writer work and whose body is empty. *)
Definition blankObject (o : Object) : Prop :=
  oBody o = EmptyString ∧ oReaderErr o = None ∧ oCloseErr o = None
  ∧ oWriterErr o = None.

(* ===================================================================== *)
(** ** A chain of nested single-entry directories *)

Fixpoint repeatByte (n : nat) (c : ascii) (tl : string) : string :=
  match n with
  | O => tl
  | S n' => String c (repeatByte n' c tl)
  end.

(** The 20-byte hash numbered [k]: 18 zero bytes, then [k] in two bytes. *)
Definition hashOfNat (k : nat) : Hash :=
  repeatByte 18 NUL
    (String (ascii_of_nat (k / 256)) (String (ascii_of_nat (k mod 256)) EmptyString)).

Definition natOfHash (h : Hash) : nat :=
  match String.get 18 h, String.get 19 h with
  | Some a, Some b => nat_of_ascii a * 256 + nat_of_ascii b
  | _, _ => 0
  end.

(** Directory number [k] of a chain of [n]: one entry [d] for directory
    [k + 1], or, in the innermost directory, one entry [f] for a blob. *)
Definition chainBody (n k : nat) : string :=
  if decide (k < n)%nat
  then "40000 d" +:+ String NUL (hashOfNat (S k))
  else "100644 f" +:+ String NUL (hashOfNat 0).

Definition chainObject (n k : nat) : Object :=
  mkObject TreeObject (Z.of_nat (String.length (chainBody n k))) (chainBody n k)
           (λ _ _, hashOfNat k) None None None.

Definition chainBlob : Object :=
  mkObject BlobObject 0 EmptyString (λ _ _, hashOfNat 0) None None None.

(** The store of a chain of [n] directories, numbered [1] (the root) to
    [n]; hash number [0] is the blob. *)
Definition chainStore (n : nat) : ObjectStorage :=
  λ h, let k := natOfHash h in
       if decide (k = 0)%nat then inr chainBlob
       else if decide (k ≤ n)%nat then inr (chainObject n k)
       else inl ErrObjectNotFound.

Definition chainRoot (n : nat) : Tree := dTree (Decode emptyTree (chainObject n 1)).

(** The decoded form of directory [k], its path below the root, and the
    walker's stack when it stands in front of the entry of directory [k]:
    directory [k] on top with its cursor at the start, the directories
    above it underneath, each with its one entry already taken. *)
Definition chainEntry (n k : nat) : TreeEntry :=
  if decide (k < n)%nat
  then mkTreeEntry "d" (Z.lor 16384 ModeDir) (hashOfNat (S k))
  else mkTreeEntry "f" 33188 (hashOfNat 0).

Definition chainTree (n k : nat) : Tree := mkTree [chainEntry n k] (hashOfNat k) None.

Fixpoint chainPath (k : nat) : string :=
  match k with
  | O => EmptyString
  | S k' =>
      match k' with
      | O => EmptyString
      | S _ => joinPath (chainPath k') "d"
      end
  end.

Fixpoint chainBelow (n k : nat) : list Frame :=
  match k with
  | O => []
  | S k' =>
      mkFrame (mkTreeEntryIter (chainTree n (S k')) 1) (chainPath (S k'))
        :: chainBelow n k'
  end.

Definition chainStack (n k : nat) : list Frame :=
  mkFrame (mkTreeEntryIter (chainTree n k) 0) (chainPath k) :: chainBelow n (k - 1).

(* ===================================================================== *)
(** ** A sample repository *)

Definition sampleHasher (k : nat) : ObjectType → string → Hash := λ _ _, hashOfNat k.

(** A blob of two lines, a commit, the tree [dir] holding [inner.txt], an
    empty tree, and the root tree with [dir], a submodule-style entry [sub]
    for the commit and an entry [gone] for an object that is not stored. *)
Definition sampleBlob : Object :=
  mkObject BlobObject 6 ("l1" +:+ String LF ("l2" +:+ String LF EmptyString))
           (sampleHasher 1) None None None.

Definition sampleCommit : Object :=
  mkObject CommitObject 4 "tree" (sampleHasher 3) None None None.

Definition sampleDir : Object :=
  mkObject TreeObject 37 ("100644 inner.txt" +:+ String NUL (hashOfNat 1))
           (sampleHasher 2) None None None.

Definition sampleEmptyTree : Object :=
  mkObject TreeObject 0 EmptyString (sampleHasher 4) None None None.

Definition sampleStore : ObjectStorage :=
  λ h, match natOfHash h with
       | 1%nat => inr sampleBlob
       | 2%nat => inr sampleDir
       | 3%nat => inr sampleCommit
       | 4%nat => inr sampleEmptyTree
       | _ => inl ErrObjectNotFound
       end.

Definition dirEntry : TreeEntry := mkTreeEntry "dir" (Z.lor 16384 ModeDir) (hashOfNat 2).
Definition subEntry : TreeEntry := mkTreeEntry "sub" 57344 (hashOfNat 3).
Definition goneEntry : TreeEntry := mkTreeEntry "gone" 33188 (hashOfNat 9).

Definition sampleRoot : Tree := mkTree [dirEntry; subEntry; goneEntry] (hashOfNat 5) None.

(** A tree to iterate over: the directory [dir] and the commit [sub]. *)
Definition sampleWalkRoot : Tree := mkTree [dirEntry; subEntry] (hashOfNat 6) None.

(** A callback that records the names it is handed and never fails, and
    one that records the name and asks to stop. *)
Definition recordName (seen : list string) (f : File) : list string * option error :=
  (seen ++ [FName f], None).

Definition recordAndStop (seen : list string) (f : File) : list string * option error :=
  (seen ++ [FName f], Some ErrStop).

Definition recordHash (seen : list Hash) (t : Tree) : list Hash * option error :=
  (seen ++ [THash t], None).

(* ===================================================================== *)
(** ** Further functions of the sources and notions for their properties *)

(** [n] calls of [treeEntryIter.Next], one after the other, up to the
    first error: the entries returned, the iterator left, and the error. *)
Fixpoint treeEntryIter_run (n : nat) (iter : treeEntryIter)
  : list TreeEntry * treeEntryIter * option error :=
  match n with
  | O => ([], iter, None)
  | S n' =>
      match treeEntryIter_Next iter with
      | (iter1, inl err) => ([], iter1, Some err)
      | (iter1, inr e) =>
          let '(es, iter2, err) := treeEntryIter_run n' iter1 in (e :: es, iter2, err)
      end
  end.

(** [NewFileIter(r, t)] and [NewTreeIter(r, t)]: a new iterator on the
    heap, over a new walker, and its address. *)
Definition NewFileIter {St} (ops : WalkerOps St) (h : gmap loc (FileIter St))
    (r : ObjectStorage) (t : Tree) : gmap loc (FileIter St) * loc :=
  let i := fresh (dom h) in (<[i := mkFileIter (NewTreeWalker ops r t)]> h, i).

Definition NewTreeIter {St} (ops : WalkerOps St) (h : gmap loc (TreeIter St))
    (r : ObjectStorage) (t : Tree) : gmap loc (TreeIter St) * loc :=
  let i := fresh (dom h) in (<[i := mkTreeIter (NewTreeWalker ops r t)]> h, i).

(** [Tree.Files]: [NewFileIter(t.r, t)], with [r] the tree's repository. *)
Definition Tree_Files {St} (ops : WalkerOps St) (h : gmap loc (FileIter St))
    (r : ObjectStorage) (t : Tree) : gmap loc (FileIter St) * loc :=
  NewFileIter ops h r t.

(** What [FileIter.Next] makes of a walker's item: a File for a blob, with
    the walker's path as its name and the entry's mode; nothing for any
    other object.  And what [TreeIter.Next] makes of it: the tree, for a
    tree. *)
Definition fileOf (x : WalkItem) : option File :=
  match x with
  | (name, e, GBlob blob) => Some (newFile name (Mode e) blob)
  | _ => None
  end.

Definition treeOf (x : WalkItem) : option Tree :=
  match x with
  | (_, _, GTree tree) => Some tree
  | _ => None
  end.


(** The sample storage with a fault: fetching the object of [dir] fails
    with an error of the storage's own. *)
Definition brokenStore : ObjectStorage :=
  λ h, match natOfHash h with
       | 2%nat => inl (ErrOther "disk")
       | _ => sampleStore h
       end.

(** The number of bytes [c] in [s]. *)
Fixpoint countByte (c : ascii) (s : string) : nat :=
  match s with
  | EmptyString => 0
  | String a r => (if Ascii.eqb a c then 1 else 0) + countByte c r
  end.

(** What both [Next] loops do, seen on the walker's state alone: items are
    taken from the walker until [sel] accepts one or the walker fails. *)
Fixpoint selectNext {St A} (sel : WalkItem → option A) (ops : WalkerOps St)
    (r : ObjectStorage) (fuel : nat) (st : St) : option (St * (error + A)) :=
  match fuel with
  | O => None
  | S fuel' =>
      match wStep ops r st with
      | (st1, inl err) => Some (st1, inl err)
      | (st1, inr x) =>
          match sel x with
          | Some a => Some (st1, inr a)
          | None => selectNext sel ops r fuel' st1
          end
      end
  end.
(** A record of a tree object as [Tree.Decode] reads it: the mode string,
    a space, the name, a NUL byte, the hash. *)
Record RawRecord : Type := mkRawRecord {
  rMode : string;
  rName : string;
  rHash : Hash
}.

Definition recordBytes (r : RawRecord) : string :=
  rMode r +:+ String SP (rName r +:+ String NUL (rHash r)).

Fixpoint recordsBytes (rs : list RawRecord) : string :=
  match rs with
  | [] => EmptyString
  | r :: rest => recordBytes r +:+ recordsBytes rest
  end.

(** A well-formed record: a mode without a space that [decodeFileMode]
    accepts, a name without a NUL byte, a hash of 20 bytes.  The records
    of directories ([40000]) and of symlinks ([120000]) are among them. *)
Definition wellFormedRecord (r : RawRecord) : Prop :=
  contains SP (rMode r) = false
  ∧ snd (decodeFileMode (rMode r)) = None
  ∧ contains NUL (rName r) = false
  ∧ wfHash (rHash r).

(** The entry [Tree.Decode] makes of a record. *)
Definition entryOfRecord (r : RawRecord) : TreeEntry :=
  mkTreeEntry (rName r) (fst (decodeFileMode (rMode r))) (rHash r).

(** Two well-formed records: a directory and a file. *)
Definition sampleRecords : list RawRecord :=
  [mkRawRecord "40000" "dir" (hashOfNat 2); mkRawRecord "100644" "a.txt" (hashOfNat 1)].

(* ===================================================================== *)
(** * Properties *)

(** ** strings.Split *)

Lemma Split_nonempty sep s : Split sep s ≠ [].
Proof.
  destruct s as [|c r]; simpl; [done|].
  destruct (Ascii.eqb c sep); [done|]. by destruct (Split sep r).
Qed.

Lemma Split_single_empty sep s : Split sep s = [EmptyString] → s = EmptyString.
Proof.
  destruct s as [|c r]; simpl; [done|].
  destruct (Ascii.eqb c sep).
  - intros [= Hr]. by destruct (Split_nonempty sep r).
  - by destruct (Split sep r).
Qed.

(** The pieces, joined again with the separator, are the input. *)
Lemma Join_Split sep s : Join sep (Split sep s) = s.
Proof.
  induction s as [|c r IH]; simpl; [done|].
  pose proof (Split_nonempty sep r) as Hne.
  destruct (Ascii.eqb_spec c sep) as [->|Hc].
  - destruct (Split sep r) as [|h tl] eqn:E; [done|].
    change (Join sep (EmptyString :: h :: tl)) with (String sep (Join sep (h :: tl))).
    by rewrite IH.
  - destruct (Split sep r) as [|h tl] eqn:E; [done|].
    destruct tl as [|h' tl']; simpl in *; by rewrite <- IH.
Qed.

(** No piece contains the separator. *)
Lemma Split_pieces sep s : Forall (λ p, contains sep p = false) (Split sep s).
Proof.
  induction s as [|c r IH]; simpl.
  - by constructor.
  - destruct (Ascii.eqb c sep) eqn:Hc.
    + by constructor.
    + destruct (Split sep r) as [|h tl]; inversion IH; subst; constructor; simpl;
        rewrite ?Hc; auto.
Qed.

(** The last piece is empty exactly for the empty input and for an input
    that ends in the separator. *)
Lemma last_Split_empty sep s :
  last (Split sep s) = Some EmptyString ↔ s = EmptyString ∨ endsWith sep s = true.
Proof.
  induction s as [|c r IH]; simpl.
  - split; auto.
  - pose proof (Split_nonempty sep r) as Hne.
    pose proof (Split_single_empty sep r) as Hse.
    destruct (Ascii.eqb c sep) eqn:Hc.
    + destruct (Split sep r) as [|h tl] eqn:E; [done|].
      rewrite last_cons. change (last (h :: tl)) with (last (h :: tl)).
      destruct r as [|a r'].
      * simpl in E. injection E as <- <-. simpl. split; auto.
      * destruct (last (h :: tl)) as [x|] eqn:El.
        -- rewrite IH. split; intros [?|?]; try done; auto.
        -- by apply last_None in El.
    + destruct (Split sep r) as [|h tl] eqn:E; [done|].
      destruct tl as [|h' tl'].
      * simpl. split; [done|]. intros [?|He]; [done|].
        destruct r as [|a r']; [done|].
        assert (Some h = Some EmptyString) as [= ->] by (apply IH; auto).
        by specialize (Hse eq_refl).
      * rewrite last_cons.
        change (last (h :: h' :: tl')) with (last (h :: h' :: tl')) in IH.
        rewrite last_cons in IH.
        destruct r as [|a r']; [done|].
        destruct (last (h' :: tl')) as [x|] eqn:El.
        -- rewrite IH. split; intros [?|?]; try done; auto.
        -- by apply last_None in El.
Qed.

(** ** File.Lines *)

(** C10. When the content of a file reads as the string [s], [File.Lines]
    returns [s] split on the newline byte, with the one trailing empty
    piece removed when [s] ends in a newline; empty content gives the
    empty list.  The split is the one whose pieces hold no newline and,
    joined by newlines, give [s] back. *)
Theorem Lines_splits_on_newline (f : File) (s : string) :
  Contents f = (s, None) →
  Lines f = inr (if decide (s = EmptyString) then []
                 else if endsWith LF s
                      then take (length (Split LF s) - 1) (Split LF s)
                      else Split LF s)
  ∧ Join LF (Split LF s) = s
  ∧ Forall (λ p, contains LF p = false) (Split LF s)
  ∧ (endsWith LF s = true →
     Split LF s = take (length (Split LF s) - 1) (Split LF s) ++ [EmptyString]).
Proof.
  intros Hc. unfold Lines. rewrite Hc.
  pose proof (last_Split_empty LF s) as Hl.
  split; [|split; [apply Join_Split|split; [apply Split_pieces|]]].
  - destruct (decide (last (Split LF s) = Some EmptyString)) as [Hy|Hn].
    + destruct (decide (s = EmptyString)) as [->|Hs]; [done|].
      destruct (proj1 Hl Hy) as [? | ->]; done.
    + destruct (decide (s = EmptyString)) as [->|Hs]; [by destruct Hn|].
      destruct (endsWith LF s); [|done]. destruct Hn. apply Hl. auto.
  - intros He. assert (last (Split LF s) = Some EmptyString) as Hy by (apply Hl; auto).
    apply last_Some in Hy as [l' Hl']. rewrite Hl' at 2 3. rewrite Hl' at 1.
    rewrite length_app. simpl. replace (length l' + 1 - 1)%nat with (length l') by lia.
    by rewrite take_app_length.
Qed.

Lemma Lines_splits_on_newline_witness :
  let s := ("x" +:+ String LF ("y" +:+ String LF EmptyString))%string in
  let f := mkFile "a" 33188 (Blob_Decode
             (mkObject BlobObject 4 s (λ _ _, EmptyString) None None None)) in
  Contents f = (s, None) ∧ Lines f = inr ["x"%string; "y"%string].
Proof.
  intros s f. split; [reflexivity|].
  exact (proj1 (Lines_splits_on_newline f s eq_refl)).
Defined.

(** ** The entry index *)

Lemma indexOf_snoc es e : indexOf (es ++ [e]) = <[Name e := e]> (indexOf es).
Proof. unfold indexOf. by rewrite foldl_app. Qed.

Lemma lastNamed_snoc name es e :
  lastNamed name (es ++ [e]) = if decide (Name e = name) then Some e else lastNamed name es.
Proof.
  unfold lastNamed. rewrite filter_app, filter_cons, filter_nil.
  destruct (decide (Name e = name)).
  - by rewrite last_snoc.
  - by rewrite app_nil_r.
Qed.

(** Looking a name up in the map [buildMap] makes finds the last entry of
    the list with that name. *)
Lemma indexOf_lookup es name : indexOf es !! name = lastNamed name es.
Proof.
  induction es as [|e es IH] using rev_ind; [done|].
  rewrite indexOf_snoc, lastNamed_snoc, lookup_insert.
  by destruct (decide (Name e = name)).
Qed.

Lemma entry_unbuilt t name :
  m t = None →
  entry t name = ((mkTree (Entries t) (THash t) (Some (indexOf (Entries t))),
                   found (indexOf (Entries t) !! name)), [EvBuildMap]).
Proof.
  intros Hm. unfold entry. rewrite Hm. simpl.
  by destruct (indexOf (Entries t) !! name).
Qed.

Lemma entry_cached t mp name :
  m t = Some mp → entry t name = ((t, found (mp !! name)), []).
Proof.
  intros Hm. unfold entry. rewrite Hm. simpl. rewrite Hm.
  by destruct (mp !! name).
Qed.

Lemma entry_view t name :
  snd (fst (entry t name)) = found (indexView t !! name)
  ∧ m (fst (fst (entry t name))) = Some (indexView t)
  ∧ Entries (fst (fst (entry t name))) = Entries t
  ∧ THash (fst (fst (entry t name))) = THash t.
Proof.
  unfold indexView. destruct (m t) as [mp|] eqn:Hm.
  - by rewrite (entry_cached t mp name Hm).
  - by rewrite (entry_unbuilt t name Hm).
Qed.

Lemma lookups_cached t mp names :
  m t = Some mp →
  lookups t names = ((t, map (λ n, found (mp !! n)) names), []).
Proof.
  intros Hm. induction names as [|n rest IH]; [done|].
  simpl. rewrite (entry_cached t mp n Hm). simpl. by rewrite IH.
Qed.

Lemma lookups_unbuilt t n rest :
  m t = None →
  lookups t (n :: rest) =
    ((mkTree (Entries t) (THash t) (Some (indexOf (Entries t))),
      map (λ n, found (indexOf (Entries t) !! n)) (n :: rest)), [EvBuildMap]).
Proof.
  intros Hm. simpl. rewrite (entry_unbuilt t n Hm). simpl.
  by rewrite (lookups_cached (mkTree (Entries t) (THash t) (Some (indexOf (Entries t))))
                (indexOf (Entries t)) rest eq_refl).
Qed.

(** C7. Over any run of lookups on a tree the index is built at most
    once: in the first lookup when the tree has no index yet, from the
    entry list as it is then, with no build in the lookups after it, and
    never when an index is cached, which every lookup then reuses as it
    is.  A name that occurs several times resolves to its last entry in
    list order, and the entry list is the same after the run as before. *)
Theorem index_built_once (t : Tree) (names : list string) :
  let out := lookups t names in
  (builds (snd out) ≤ 1)%nat
  ∧ (m t = None → names ≠ [] →
     builds (snd out) = 1%nat
     ∧ m (fst (fst out)) = Some (indexOf (Entries t))
     ∧ snd (fst out) = map (λ n, found (lastNamed n (Entries t))) names)
  ∧ (m t = None → ∀ n rest, names = n :: rest →
     builds (snd (entry t n)) = 1%nat
     ∧ builds (snd (lookups (fst (fst (entry t n))) rest)) = 0%nat)
  ∧ (∀ mp, m t = Some mp →
     builds (snd out) = 0%nat ∧ fst (fst out) = t
     ∧ snd (fst out) = map (λ n, found (mp !! n)) names)
  ∧ Entries (fst (fst out)) = Entries t.
Proof.
  simpl. destruct (m t) as [mp|] eqn:Hm.
  - rewrite (lookups_cached t mp names Hm). cbn [fst snd].
    split; [vm_compute; lia|]. split; [done|]. split; [done|]. split; [|done].
    by intros mp' [= <-].
  - assert (∀ n rest,
              builds (snd (entry t n)) = 1%nat
              ∧ builds (snd (lookups (fst (fst (entry t n))) rest)) = 0%nat) as Hfirst.
    { intros n rest. rewrite (entry_unbuilt t n Hm). cbn [fst snd].
      by rewrite (lookups_cached (mkTree (Entries t) (THash t) (Some (indexOf (Entries t))))
                    (indexOf (Entries t)) rest eq_refl). }
    destruct names as [|n rest].
    + simpl. split; [vm_compute; lia|]. repeat split; done.
    + rewrite (lookups_unbuilt t n rest Hm). cbn [fst snd].
      split; [vm_compute; lia|]. split.
      { intros _ _. split; [reflexivity|]. split; [done|].
        apply map_ext. intros a. by rewrite indexOf_lookup. }
      split; [intros _ n' rest' _; apply Hfirst|]. done.
Qed.

(** ** strconv.ParseInt and the file-mode classification *)

Lemma octDigit_range c d : octDigit c = Some d → 0 ≤ d ≤ 7.
Proof. unfold octDigit. case_decide; intros [= <-]; lia. Qed.

Lemma parseDigits_range s : ∀ n v,
  0 ≤ n ≤ maxUint32 → parseDigits n s = inr v → 0 ≤ v ≤ maxUint32.
Proof.
  induction s as [|c r IH]; simpl; intros n v Hn.
  - by intros [= <-].
  - destruct (octDigit c) as [d|] eqn:Hd; [|done].
    apply octDigit_range in Hd. case_decide; [done|].
    apply IH. lia.
Qed.

Lemma parseDigits_error s : ∀ n e,
  parseDigits n s = inl e → e = ErrSyntax ∨ e = ErrRange.
Proof.
  induction s as [|c r IH]; simpl; intros n e; [done|].
  destruct (octDigit c); [|intros [= <-]; auto].
  case_decide; [intros [= <-]; auto|apply IH].
Qed.

Lemma ParseUint8_32_range s v : ParseUint8_32 s = inr v → 0 ≤ v ≤ maxUint32.
Proof.
  destruct s; [done|]. apply parseDigits_range. unfold maxUint32. lia.
Qed.

Lemma ParseUint8_32_error s e : ParseUint8_32 s = inl e → e = ErrSyntax ∨ e = ErrRange.
Proof. destruct s; [intros [= <-]; auto|]. apply parseDigits_error. Qed.

(** A parsed mode is a signed 32-bit value, and the parser's errors are
    its own two. *)
Lemma ParseInt8_32_range s fm err :
  ParseInt8_32 s = (fm, err) →
  - 2 ^ 31 ≤ fm < 2 ^ 31 ∧ (err = None ∨ err = Some ErrSyntax ∨ err = Some ErrRange).
Proof.
  destruct s as [|c r]; [intros [= <- <-]; split; [lia|auto]|]. unfold ParseInt8_32.
  match goal with |- context [ParseUint8_32 ?b] =>
    destruct (ParseUint8_32 b) as [e|un] eqn:Hp end.
  - apply ParseUint8_32_error in Hp as [-> | ->]; [intros [= <- <-]; split; [lia|auto]|].
    unfold maxUint32.
    destruct (Ascii.eqb c "-"); simpl; repeat case_bool_decide; try lia;
      intros [= <- <-]; split; (lia || auto).
  - apply ParseUint8_32_range in Hp. unfold maxUint32 in Hp.
    destruct (Ascii.eqb c "-"); simpl; repeat case_bool_decide;
      intros [= <- <-]; split; (lia || auto).
Qed.

Lemma failing_parse_error s fm err :
  ParseInt8_32 s = (fm, err) → failing err = err.
Proof.
  intros H. apply ParseInt8_32_range in H as [_ [-> | [-> | ->]]]; done.
Qed.

Lemma ModeType_low_bits n : 0 ≤ n < 19 → Z.testbit ModeType n = false.
Proof.
  intros Hn.
  assert (n = 0 ∨ n = 1 ∨ n = 2 ∨ n = 3 ∨ n = 4 ∨ n = 5 ∨ n = 6 ∨ n = 7 ∨ n = 8
          ∨ n = 9 ∨ n = 10 ∨ n = 11 ∨ n = 12 ∨ n = 13 ∨ n = 14 ∨ n = 15
          ∨ n = 16 ∨ n = 17 ∨ n = 18) as H by lia.
  repeat (destruct H as [-> | H]; [reflexivity|]). by subst.
Qed.

(** A mode below the lowest type bit of [os.FileMode] is a regular file. *)
Lemma IsRegular_small fm : 0 ≤ fm < 2 ^ 19 → IsRegular fm = true.
Proof.
  intros Hfm. unfold IsRegular. apply Z.eqb_eq. apply Z.bits_inj'. intros n Hn.
  rewrite Z.land_spec, Z.bits_0.
  destruct (decide (n < 19)).
  - rewrite ModeType_low_bits by lia. apply andb_false_r.
  - destruct (decide (fm = 0)) as [->|]; [by rewrite Z.bits_0|].
    rewrite Z.bits_above_log2; [done|lia|].
    assert (Z.log2 fm < 19) by (apply Z.log2_lt_pow2; lia). lia.
Qed.

Lemma Perm_toFileMode fm : Perm (toFileMode fm) = Z.land fm ModePerm.
Proof.
  unfold Perm, toFileMode, ModePerm.
  change 511 with (Z.ones 9). rewrite !Z.land_ones by lia.
  change (2 ^ 32) with (2 ^ 9 * 2 ^ 23).
  rewrite Z.rem_mul_r by lia.
  rewrite (Z.mul_comm (2 ^ 9)), Z_mod_plus_full. apply Z.mod_mod. lia.
Qed.

Lemma IsDir_testbit md : IsDir md = Z.testbit md 31.
Proof.
  unfold IsDir, ModeDir. change (Z.shiftl 1 31) with (2 ^ 31).
  destruct (Z.testbit md 31) eqn:Hb.
  - apply negb_true_iff, Z.eqb_neq. intros H0.
    assert (Z.testbit (Z.land md (2 ^ 31)) 31 = true) as Hl
      by (rewrite Z.land_spec, Hb, Z.pow2_bits_true; [done|lia]).
    by rewrite H0, Z.bits_0 in Hl.
  - apply negb_false_iff, Z.eqb_eq. apply Z.bits_inj'. intros n Hn.
    rewrite Z.land_spec, Z.bits_0, Z.pow2_bits_eqb by lia.
    destruct (Z.eqb_spec 31 n) as [<-|]; [by rewrite Hb|apply andb_false_r].
Qed.

(** A mode with the directory bit is not a regular-file mode. *)
Lemma IsDir_not_regular md : IsDir md = true → IsRegular md = false.
Proof.
  rewrite IsDir_testbit. intros Hb. unfold IsRegular. apply Z.eqb_neq. intros H0.
  assert (Z.testbit (Z.land md ModeType) 31 = true) as Hl
    by (rewrite Z.land_spec, Hb; reflexivity).
  by rewrite H0, Z.bits_0 in Hl.
Qed.

(** The conversion to [uint32] wraps a negative value around, into the
    upper half of the 32-bit range, where the directory bit is set. *)
Lemma toFileMode_negative fm :
  - 2 ^ 31 ≤ fm < 0 → toFileMode fm = fm + 2 ^ 32 ∧ IsDir (toFileMode fm) = true.
Proof.
  intros Hr. unfold toFileMode.
  assert (fm mod 2 ^ 32 = fm + 2 ^ 32) as ->
    by (symmetry; apply Z.mod_unique with (-1); [left; lia|lia]).
  split; [done|]. rewrite IsDir_testbit, Z.testbit_true by lia.
  replace ((fm + 2 ^ 32) / 2 ^ 31) with 1
    by (apply Z.div_unique with (fm + 2 ^ 31); [left; lia|lia]).
  done.
Qed.

(** C2, as the code has it.  A mode string that parses to [040000] decodes
    to a directory-classified mode and one that parses to [0120000] to a
    symlink-classified mode.  Any other parsed value is converted to the
    32-bit mode with no classification bit added, so its permission bits
    (the executable bits among them) are the low nine bits of the parsed
    value.  A value that is not negative is returned unchanged, and it is a
    regular-file mode whenever it is below [2^19], the lowest type bit of
    [os.FileMode].  A negative value, which the parser accepts, wraps
    around to the value plus [2^32]: a mode with the directory bit, not a
    regular-file mode. *)
Theorem decodeFileMode_classifies (s : string) (fm : Z) :
  ParseInt8_32 s = (fm, None) →
  ∃ md, decodeFileMode s = (md, None)
    ∧ (fm = 16384 → md = Z.lor 16384 ModeDir ∧ IsDir md = true)
    ∧ (fm = 40960 → md = Z.lor 40960 ModeSymlink ∧ IsSymlink md = true)
    ∧ (fm ≠ 16384 → fm ≠ 40960 →
       md = toFileMode fm
       ∧ Perm md = Z.land fm ModePerm
       ∧ (0 ≤ fm → md = fm)
       ∧ (0 ≤ fm < 2 ^ 19 → IsRegular md = true)
       ∧ (fm < 0 → md = fm + 2 ^ 32 ∧ IsDir md = true ∧ IsRegular md = false)).
Proof.
  intros Hp. pose proof (ParseInt8_32_range _ _ _ Hp) as [Hrange _].
  unfold decodeFileMode. rewrite Hp. cbn [failing].
  destruct (decide (fm = 16384)) as [->|H1].
  { eexists. split; [done|]. repeat split; done. }
  destruct (decide (fm = 40960)) as [->|H2].
  { eexists. split; [done|]. repeat split; done. }
  eexists. split; [done|]. split; [done|]. split; [done|]. intros _ _.
  split; [done|]. split; [apply Perm_toFileMode|].
  assert (0 ≤ fm → toFileMode fm = fm) as Hsame
    by (intros Hpos; unfold toFileMode; apply Z.mod_small; lia).
  split; [exact Hsame|]. split.
  - intros Hr. rewrite Hsame by lia. by apply IsRegular_small.
  - intros Hneg. destruct (toFileMode_negative fm ltac:(lia)) as [Hw Hd].
    split; [exact Hw|]. split; [exact Hd|]. by apply IsDir_not_regular.
Qed.

Lemma decodeFileMode_classifies_witness :
  ParseInt8_32 "100755" = (33261, None)
  ∧ ParseInt8_32 "-1" = (-1, None)
  ∧ (∃ md, decodeFileMode "100755" = (md, None)
       ∧ md = 33261 ∧ Perm md = 493 ∧ IsRegular md = true)
  ∧ (∃ md, decodeFileMode "-1" = (md, None)
       ∧ md = 4294967295 ∧ Perm md = 511 ∧ IsDir md = true ∧ IsRegular md = false).
Proof.
  split; [reflexivity|]. split; [reflexivity|]. split.
  - destruct (decodeFileMode_classifies "100755" 33261 eq_refl) as (md & Hd & _ & _ & Ho).
    destruct (Ho ltac:(lia) ltac:(lia)) as (_ & Hperm & Hsame & Hreg & _).
    exists md. split; [exact Hd|]. split; [apply Hsame; lia|].
    split; [rewrite Hperm; reflexivity|apply Hreg; lia].
  - destruct (decodeFileMode_classifies "-1" (-1) eq_refl) as (md & Hd & _ & _ & Ho).
    destruct (Ho ltac:(lia) ltac:(lia)) as (_ & Hperm & _ & _ & Hneg).
    destruct (Hneg ltac:(lia)) as (Hw & Hdir & Hreg).
    exists md. split; [exact Hd|]. split; [rewrite Hw; reflexivity|].
    split; [rewrite Hperm; reflexivity|]. split; [exact Hdir|exact Hreg].
Defined.

(** A string that does not parse as a signed 32-bit octal number makes
    [decodeFileMode] fail with the parser's error. *)
Lemma decodeFileMode_error s fm e :
  ParseInt8_32 s = (fm, Some e) → decodeFileMode s = (0, Some e).
Proof.
  intros Hp. unfold decodeFileMode. rewrite Hp.
  by rewrite (failing_parse_error _ _ _ Hp).
Qed.

(** C2 as stated fails: the octal string [1000000000] parses to a value
    that is neither [040000] nor [0120000], yet the mode it decodes to is
    the symlink bit of [os.FileMode]: symlink-classified, not a plain
    file. *)
Lemma decodeFileMode_other_value_not_plain :
  ParseInt8_32 "1000000000" = (134217728, None)
  ∧ 134217728 ≠ 16384 ∧ 134217728 ≠ 40960
  ∧ decodeFileMode "1000000000" = (ModeSymlink, None)
  ∧ IsRegular ModeSymlink = false
  ∧ IsSymlink ModeSymlink = true.
Proof. repeat split; done. Qed.

(** ** Reading from the input *)

Lemma append_assoc_s (a b c : string) : (a +:+ b) +:+ c = a +:+ (b +:+ c).
Proof. induction a as [|x a IH]; simpl; [done|]. by rewrite IH. Qed.

Lemma length_append_s (a b : string) :
  String.length (a +:+ b) = (String.length a + String.length b)%nat.
Proof. induction a as [|x a IH]; simpl; [done|]. by rewrite IH. Qed.

Lemma ReadString_delim d a rest :
  contains d a = false →
  ReadString d (a +:+ String d rest) = (a +:+ String d EmptyString, rest, None).
Proof.
  induction a as [|x a IH]; simpl.
  - by rewrite Ascii.eqb_refl.
  - intros [Hx Ha]%orb_false_elim. rewrite Hx, (IH Ha). done.
Qed.

Lemma dropLast_snoc a d : dropLast (a +:+ String d EmptyString) = a.
Proof.
  induction a as [|x a IH]; [done|].
  simpl. destruct (a +:+ String d EmptyString) eqn:E.
  - by destruct a.
  - by rewrite IH.
Qed.

Lemma splitAt_append h rest : splitAt (String.length h) (h +:+ rest) = Some (h, rest).
Proof. induction h as [|x h IH]; simpl; [done|]. by rewrite IH. Qed.

Lemma ReadFull_hash h rest : wfHash h → ReadFull hashSize (h +:+ rest) = inr (h, rest).
Proof. unfold wfHash, ReadFull. intros <-. by rewrite splitAt_append. Qed.

(** ** Octal digits: printing and parsing *)

Lemma digit_cases d : 0 ≤ d < 8 →
  d = 0 ∨ d = 1 ∨ d = 2 ∨ d = 3 ∨ d = 4 ∨ d = 5 ∨ d = 6 ∨ d = 7.
Proof. lia. Qed.

Lemma octDigit_digitChar d : 0 ≤ d < 8 → octDigit (digitChar d) = Some d.
Proof. intros H%digit_cases. repeat (destruct H as [-> | H]; [done|]). by subst. Qed.

Lemma digitChar_eqb d c :
  0 ≤ d < 8 → octDigit c = None → Ascii.eqb (digitChar d) c = false.
Proof.
  intros Hd Hc. destruct (Ascii.eqb_spec (digitChar d) c) as [<-|]; [|done].
  by rewrite octDigit_digitChar in Hc.
Qed.

Lemma fmtOctalAux_contains c f : ∀ n acc,
  0 ≤ n → octDigit c = None → contains c acc = false →
  contains c (fmtOctalAux f n acc) = false.
Proof.
  induction f as [|f IH]; simpl; intros n acc Hn Hc Hacc; [done|].
  case_decide.
  - simpl. by rewrite digitChar_eqb, Hacc by (done || lia).
  - apply IH; [apply Z.div_pos; lia|done|]. simpl.
    rewrite digitChar_eqb, Hacc; [done| |done].
    pose proof (Z.mod_pos_bound n 8). lia.
Qed.

Lemma fmtOctalAux_head f : ∀ n acc,
  0 ≤ n →
  (f ≠ 0%nat ∨ ∃ d r, 0 ≤ d < 8 ∧ acc = String (digitChar d) r) →
  ∃ d r, 0 ≤ d < 8 ∧ fmtOctalAux f n acc = String (digitChar d) r.
Proof.
  induction f as [|f IH]; simpl; intros n acc Hn Hf.
  - by destruct Hf.
  - case_decide.
    + exists n, acc. split; [lia|done].
    + apply IH; [apply Z.div_pos; lia|]. right. eexists _, _. split; [|done].
      pose proof (Z.mod_pos_bound n 8). lia.
Qed.

Lemma parseDigits_fmtOctalAux f : ∀ n acc,
  0 ≤ n < 8 ^ Z.of_nat f → n ≤ maxUint32 →
  parseDigits 0 (fmtOctalAux f n acc) = parseDigits n acc.
Proof.
  induction f as [|f IH]; intros n acc Hn Hmax.
  - simpl. replace n with 0 by (change (8 ^ Z.of_nat 0) with 1 in Hn; lia). done.
  - simpl fmtOctalAux. case_decide as Hlt.
    + simpl. rewrite octDigit_digitChar by lia. simpl.
      by rewrite decide_False by lia.
    + rewrite IH.
      * simpl. pose proof (Z.mod_pos_bound n 8).
        rewrite octDigit_digitChar by lia.
        replace (n / 8 * 8 + n mod 8) with n by (rewrite (Z.div_mod n 8) at 1; lia).
        by rewrite decide_False by lia.
      * rewrite Nat2Z.inj_succ, Z.pow_succ_r in Hn by lia.
        split; [apply Z.div_pos; lia|]. apply Z.div_lt_upper_bound; lia.
      * pose proof (Z.div_le_upper_bound n 8 n). apply Z.le_trans with n; [|done].
        apply Z.div_le_upper_bound; lia.
Qed.

(** Printing a mode in octal and parsing it back gives the mode, as long
    as it fits a signed 32-bit integer. *)
Lemma ParseInt8_32_fmtOctal n :
  0 ≤ n < 2 ^ 31 → ParseInt8_32 (fmtOctal n) = (n, None).
Proof.
  intros Hn. unfold fmtOctal.
  destruct (fmtOctalAux_head 11 n EmptyString) as (d & r & Hd & E); [lia|by left|].
  assert (parseDigits 0 (fmtOctalAux 11 n EmptyString) = inr n) as Hp.
  { rewrite parseDigits_fmtOctalAux; [done| |unfold maxUint32; lia].
    change (8 ^ Z.of_nat 11) with 8589934592. lia. }
  rewrite E in *. unfold ParseInt8_32.
  rewrite !digitChar_eqb by done. simpl orb. cbv iota. unfold ParseUint8_32. rewrite Hp.
  simpl. rewrite bool_decide_eq_false_2 by lia. done.
Qed.

Lemma decodeFileMode_fmtOctal md :
  0 ≤ md < 2 ^ 31 → md ≠ 16384 → md ≠ 40960 →
  decodeFileMode (fmtOctal md) = (md, None).
Proof.
  intros Hm H1 H2. unfold decodeFileMode. rewrite ParseInt8_32_fmtOctal by done.
  cbn [failing].
  rewrite !decide_False by done. unfold toFileMode. by rewrite Z.mod_small by lia.
Qed.

(** ** Decoding what Encode wrote *)

Lemma encodeEntries_cons e es :
  encodeEntries (e :: es) =
  fmtOctal (Mode e) +:+ String SP (Name e +:+ String NUL (EHash e +:+ encodeEntries es)).
Proof.
  simpl. unfold encodeEntry. rewrite !append_assoc_s. simpl.
  by rewrite ?append_assoc_s.
Qed.

Lemma encodeEntries_length es : (length es ≤ String.length (encodeEntries es))%nat.
Proof.
  induction es as [|e es IH]; [done|].
  rewrite encodeEntries_cons, length_append_s. simpl. rewrite length_append_s. simpl.
  rewrite length_append_s. lia.
Qed.

Lemma decodeLoop_encoded es : ∀ fuel acc,
  Forall roundTrips es → (length es < fuel)%nat →
  decodeLoop fuel (encodeEntries es) acc = Some (acc ++ es, None).
Proof.
  induction es as [|e es IH]; intros fuel acc Hes Hfuel.
  - destruct fuel; [simpl in Hfuel; lia|]. simpl. by rewrite app_nil_r.
  - destruct fuel as [|fuel]; [simpl in Hfuel; lia|].
    apply Forall_cons in Hes as [(Hname & Hhash & Hmode & Hd & Hl) Hes].
    rewrite encodeEntries_cons. cbn [decodeLoop].
    rewrite ReadString_delim by (apply fmtOctalAux_contains; [lia|done|done]).
    rewrite dropLast_snoc, decodeFileMode_fmtOctal by done.
    rewrite ReadString_delim by done. rewrite dropLast_snoc.
    rewrite ReadFull_hash by done.
    rewrite IH by (done || simpl in Hfuel; lia).
    rewrite <- app_assoc. by destruct e.
Qed.

(** Round trip on the entries the codec carries through: encoding a tree
    into a blank object and decoding that object into a fresh tree gives
    the entry list back, in order and field by field. *)
Lemma Decode_Encode_roundTrips t o :
  blankObject o → Forall roundTrips (Entries t) →
  snd (Encode t o) = None
  ∧ oBody (fst (Encode t o)) = encodeEntries (Entries t)
  ∧ dErr (Decode emptyTree (fst (Encode t o))) = None
  ∧ Entries (dTree (Decode emptyTree (fst (Encode t o)))) = Entries t.
Proof.
  intros (Hb & Hr & Hc & Hw) Hes.
  assert (Encode t o = (mkObject TreeObject
            (Z.of_nat (String.length (encodeEntries (Entries t))))
            (encodeEntries (Entries t)) (oHasher o) None None None, None)) as ->.
  { unfold Encode, SetSize, WriteBytes, SetType. cbn. by rewrite Hw, Hb, Hr, Hc. }
  cbn [fst snd oBody]. split; [done|]. split; [done|].
  pose proof (encodeEntries_length (Entries t)) as Hl.
  unfold Decode. cbn -[decodeLoop encodeEntries].
  rewrite decide_False by (intros H; by apply H).
  case_decide as Hz.
  - simpl. split; [done|].
    destruct (Entries t) as [|e l] in *; [done|]. cbn [length] in Hl. lia.
  - by rewrite decodeLoop_encoded by (done || lia).
Qed.

(** ** Tree.Decode always comes back *)

Lemma ReadString_length d s a rest e :
  ReadString d s = (a, rest, e) →
  (String.length rest ≤ String.length s)%nat
  ∧ (e = None → String.length rest < String.length s)%nat.
Proof.
  revert a rest e. induction s as [|c r IH]; simpl; intros a rest e.
  - intros [= <- <- <-]. split; [done|]. intros; discriminate.
  - destruct (Ascii.eqb c d).
    + intros [= <- <- <-]. split; [lia|]. intros; lia.
    + destruct (ReadString d r) as [[a' rest'] e'] eqn:E. intros [= <- <- <-].
      destruct (IH _ _ _ eq_refl) as [H1 H2]. split; [lia|]. intros He.
      specialize (H2 He). lia.
Qed.

Lemma splitAt_length n : ∀ s a rest,
  splitAt n s = Some (a, rest) → (String.length rest ≤ String.length s)%nat.
Proof.
  induction n as [|n IH]; simpl; intros s a rest.
  - intros [= <- <-]. lia.
  - destruct s as [|c r]; [done|].
    destruct (splitAt n r) as [[a' rest']|] eqn:E; [|done].
    intros [= <- <-]. apply IH in E. simpl. lia.
Qed.

(** Every round of the record loop reads at least one byte, so a fuel
    above the length of the input is never used up. *)
Lemma decodeLoop_total fuel : ∀ r acc,
  (String.length r < fuel)%nat → is_Some (decodeLoop fuel r acc).
Proof.
  induction fuel as [|fuel IH]; intros r acc Hlen; [lia|].
  cbn [decodeLoop].
  destruct (ReadString SP r) as [[mode r1] e1] eqn:E1.
  apply ReadString_length in E1 as [_ H1].
  destruct e1 as [e|]; [case_decide; eauto|]. specialize (H1 eq_refl).
  destruct (decodeFileMode (dropLast mode)) as [fm e].
  destruct (failing e); [eauto|].
  destruct (ReadString NUL r1) as [[name r2] e2] eqn:E2.
  apply ReadString_length in E2 as [H2 _].
  destruct (failing e2); [eauto|].
  unfold ReadFull. destruct (splitAt hashSize r2) as [[hash r3]|] eqn:E3.
  - apply splitAt_length in E3. apply IH. lia.
  - case_decide; eauto.
Qed.

Lemma Decode_total (o : Object) :
  is_Some (decodeLoop (S (String.length (oBody o))) (oBody o) []).
Proof. apply decodeLoop_total. lia. Qed.

(** ** Tree.Decode on empty and on foreign objects *)

(** An object of another kind is refused before its reader is asked for;
    the receiver stays as it was. *)
Lemma Decode_not_tree t o :
  oType o ≠ TreeObject → Decode t o = mkDecodeOut t (Some ErrUnsupportedObject) false.
Proof. intros H. unfold Decode. by rewrite decide_True. Qed.

(** A tree object of size zero, decoded into a fresh tree, gives the empty
    tree. *)
Lemma Decode_empty_fresh o :
  oType o = TreeObject → oSize o = 0 →
  Decode emptyTree o = mkDecodeOut (mkTree [] (ObjHash o) None) None false.
Proof.
  intros Ht Hs. unfold Decode.
  rewrite decide_False by (by intros H). by rewrite decide_True.
Qed.

(** A tree object of size zero leaves the entry list and the index of the
    receiver in place and only replaces the hash. *)
Lemma Decode_empty_keeps t o :
  oType o = TreeObject → oSize o = 0 →
  Decode t o = mkDecodeOut (mkTree (Entries t) (ObjHash o) (m t)) None false.
Proof.
  intros Ht Hs. unfold Decode.
  rewrite decide_False by (by intros H). by rewrite decide_True.
Qed.

(** C8. The code on the failing input: decoding the empty tree object
    into a tree that already holds three entries succeeds, takes the hash
    of the empty object, and still holds the three entries; the early
    return for size zero comes before the reset of the entry list.  Into a
    fresh tree the same object decodes to the empty tree, and an object of
    another kind is refused without its reader being opened. *)
Theorem Decode_empty_into_used_tree :
  Decode sampleRoot sampleEmptyTree
    = mkDecodeOut (mkTree [dirEntry; subEntry; goneEntry] (hashOfNat 4) None) None false
  ∧ Decode emptyTree sampleEmptyTree
    = mkDecodeOut (mkTree [] (hashOfNat 4) None) None false
  ∧ Decode sampleRoot sampleBlob
    = mkDecodeOut sampleRoot (Some ErrUnsupportedObject) false.
Proof. repeat split. Qed.

(** ** Tree.Encode against Tree.Decode on a directory entry *)

(** C1. The code on the failing input.  The tree object [40000 dir NUL
    hash] decodes to the one entry [dirEntry], whose mode carries the
    directory bit of [os.FileMode]; encoding that tree writes the mode as
    [20000040000], so the bytes differ from the input, and decoding the
    encoded object fails with a range error and yields no entry. *)
Theorem Encode_Decode_directory :
  let input := mkObject TreeObject 30 ("40000 dir" +:+ String NUL (hashOfNat 2))
                        (sampleHasher 5) None None None in
  let t := dTree (Decode emptyTree input) in
  let o := fst (Encode t (NewObject (sampleHasher 5))) in
  dErr (Decode emptyTree input) = None
  ∧ Entries t = [dirEntry]
  ∧ snd (Encode t (NewObject (sampleHasher 5))) = None
  ∧ oBody o = "20000040000 dir" +:+ String NUL (hashOfNat 2)
  ∧ oBody o ≠ oBody input
  ∧ dErr (Decode emptyTree o) = Some ErrRange
  ∧ Entries (dTree (Decode emptyTree o)) = [].
Proof. repeat split. by vm_compute. Qed.

(** ** The path resolver *)

Lemma gets_app tr1 tr2 : gets (tr1 ++ tr2) = gets tr1 ++ gets tr2.
Proof. unfold gets. apply omap_app. Qed.

Lemma entry_shape t name :
  ∃ t1 tr, entry t name = ((t1, found (indexView t !! name)), tr)
    ∧ gets tr = [] ∧ indexView t1 = indexView t.
Proof.
  unfold indexView. destruct (m t) as [mp|] eqn:Hm.
  - rewrite (entry_cached t mp name Hm). eexists _, _. split; [done|].
    by rewrite Hm.
  - rewrite (entry_unbuilt t name Hm). eexists _, _. split; [done|]. done.
Qed.

(** [dir] on a segment that names a stored tree: one fetch, of the entry's
    hash, and the decoded subtree. *)
Lemma dir_descends s t seg e obj :
  indexView t !! seg = Some e → s (EHash e) = inr obj → oType obj = TreeObject →
  ∃ t1 tr, dir s t seg = ((t1, inr (dTree (Decode emptyTree obj))), tr)
    ∧ gets tr = [EHash e] ∧ indexView t1 = indexView t.
Proof.
  intros Hi Hs Ht. unfold dir.
  destruct (entry_shape t seg) as (t1 & tr & -> & Hg & Hv). rewrite Hi.
  unfold Get, bind, tell, ret. cbn. rewrite Hs.
  rewrite decide_False by (by intros H). cbn.
  eexists _, _. split; [done|]. split; [|done].
  by rewrite !gets_app, Hg.
Qed.

(** [dir] on a segment with no entry, with an entry whose object is not
    stored, or with an entry whose object is not a tree. *)
Lemma dir_notADirectory s t seg :
  notADirectory s t seg →
  ∃ t1 tr, dir s t seg = ((t1, inl errDirNotFound), tr) ∧ indexView t1 = indexView t.
Proof.
  intros H. unfold dir.
  destruct (entry_shape t seg) as (t1 & tr & -> & Hg & Hv).
  unfold Get, bind, tell, ret.
  destruct H as [Hi | [(e & Hi & Hs) | (e & obj & Hi & Hs & Ht)]]; rewrite Hi; cbn.
  - eauto.
  - rewrite Hs. cbn. eauto.
  - rewrite Hs. rewrite decide_True by done. cbn. eauto.
Qed.

Lemma findEntryLoop_cons s t p q rest :
  findEntryLoop s t p (q :: rest) =
  (letM '(tree1, r) := dir s t p in
   match r with
   | inl err => ret (tree1, inl err)
   | inr sub =>
       letM '(_, r') := findEntryLoop s sub q rest in
       ret (tree1, r')
   end).
Proof. reflexivity. Qed.

Lemma findEntryLoop_resolves s rest : ∀ p t hs tree,
  descends s t (removelast (p :: rest)) hs tree →
  snd (fst (findEntryLoop s t p rest))
    = found (indexView tree !! List.last (p :: rest) EmptyString)
  ∧ gets (snd (findEntryLoop s t p rest)) = hs.
Proof.
  induction rest as [|q rest IH]; intros p t hs tree Hd.
  - simpl in Hd. inversion Hd; subst. simpl.
    destruct (entry_shape tree p) as (t1 & tr & -> & Hg & Hv). done.
  - change (removelast (p :: q :: rest)) with (p :: removelast (q :: rest)) in Hd.
    inversion Hd as [|? ? e obj ? hs' ? Hi Hs Ht Hd']; subst.
    destruct (dir_descends s t p e obj Hi Hs Ht) as (t1 & tr & Hdir & Hg & Hv).
    destruct (IH q _ _ _ Hd') as [Hres Hgets].
    rewrite findEntryLoop_cons, Hdir. unfold bind, ret. cbv beta iota.
    destruct (findEntryLoop s (dTree (Decode emptyTree obj)) q rest) as [[t2 r2] tr2].
    unfold bind, ret. cbv beta iota zeta. cbn [fst snd] in *. split; [done|].
    by rewrite gets_app, Hg, gets_app, Hgets, app_nil_r.
Qed.

Lemma findEntryLoop_fails s pre : ∀ p rest t seg post hs tree,
  p :: rest = pre ++ seg :: post → post ≠ [] →
  descends s t pre hs tree → notADirectory s tree seg →
  snd (fst (findEntryLoop s t p rest)) = inl errDirNotFound.
Proof.
  induction pre as [|x pre IH]; intros p rest t seg post hs tree Heq Hpost Hd Hn.
  - simpl in Heq. injection Heq as -> ->. inversion Hd; subst.
    destruct post as [|q post]; [done|].
    destruct (dir_notADirectory s tree seg Hn) as (t1 & tr & Hdir & _).
    rewrite findEntryLoop_cons, Hdir. done.
  - simpl in Heq. injection Heq as -> ->.
    inversion Hd as [|? ? e obj ? hs' ? Hi Hs Ht Hd']; subst.
    destruct (dir_descends s t x e obj Hi Hs Ht) as (t1 & tr & Hdir & _).
    destruct (pre ++ seg :: post) as [|q rest'] eqn:E; [by destruct pre|].
    rewrite findEntryLoop_cons, Hdir. unfold bind, ret. cbv beta iota.
    specialize (IH q rest' _ seg post _ tree (eq_sym E) Hpost Hd' Hn).
    destruct (findEntryLoop s (dTree (Decode emptyTree obj)) q rest') as [[t2 r2] tr2].
    unfold bind, ret. cbv beta iota zeta. cbn [fst snd] in *. done.
Qed.

(** C4. [findEntry] splits the path on [/].  When the descent through all
    segments but the last succeeds (each segment found in the index of the
    tree reached, its object fetched and of kind tree), the last segment is
    looked up in the index of the tree reached and returned; the objects
    fetched are exactly those of the segments before the last, so the
    entry returned is not dereferenced.  When a segment before the last has
    no entry, or its object is not stored, or its object is not a tree,
    the result is the one error [errDirNotFound]. *)
Theorem findEntry_descends_then_looks_up (s : ObjectStorage) (t : Tree) (path : string) :
  let parts := Split "/" path in
  let out := findEntry s t path in
  (∀ hs tree, descends s t (removelast parts) hs tree →
     snd (fst out) = found (indexView tree !! List.last parts EmptyString)
     ∧ gets (snd out) = hs
     ∧ length (gets (snd out)) = (length parts - 1)%nat)
  ∧ (∀ pre seg post hs tree,
       parts = pre ++ seg :: post → post ≠ [] →
       descends s t pre hs tree → notADirectory s tree seg →
       snd (fst out) = inl errDirNotFound).
Proof.
  cbn zeta. unfold findEntry. pose proof (Split_nonempty "/" path) as Hne.
  destruct (Split "/" path) as [|p rest]; [done|]. split.
  - intros hs tree Hd.
    destruct (findEntryLoop_resolves s rest p t hs tree Hd) as [H1 H2].
    split; [done|]. split; [done|]. rewrite H2.
    clear -Hd. revert Hd. generalize (p :: rest) as parts. clear. intros parts.
    revert t hs tree. induction parts as [|a parts IH]; intros t hs tree Hd.
    + inversion Hd; by subst.
    + destruct parts as [|b parts].
      * inversion Hd; by subst.
      * change (removelast (a :: b :: parts)) with (a :: removelast (b :: parts)) in Hd.
        inversion Hd; subst. cbn [length]. erewrite IH by done. cbn [length]. lia.
  - intros pre seg post hs tree Heq Hpost Hd Hn.
    by eapply findEntryLoop_fails.
Qed.

Lemma findEntry_descends_then_looks_up_witness :
  descends sampleStore sampleRoot (removelast (Split "/" "dir/inner.txt"))
           [hashOfNat 2] (dTree (Decode emptyTree sampleDir))
  ∧ snd (fst (findEntry sampleStore sampleRoot "dir/inner.txt"))
    = inr (mkTreeEntry "inner.txt" 33188 (hashOfNat 1))
  ∧ gets (snd (findEntry sampleStore sampleRoot "dir/inner.txt")) = [hashOfNat 2]
  ∧ snd (fst (findEntry sampleStore sampleRoot "gone/inner.txt")) = inl errDirNotFound
  ∧ snd (fst (findEntry sampleStore sampleRoot "sub/inner.txt")) = inl errDirNotFound
  ∧ snd (fst (findEntry sampleStore sampleRoot "nope/inner.txt")) = inl errDirNotFound.
Proof.
  assert (descends sampleStore sampleRoot (removelast (Split "/" "dir/inner.txt"))
            [hashOfNat 2] (dTree (Decode emptyTree sampleDir))) as Hd.
  { apply (descends_cons sampleStore sampleRoot "dir" dirEntry sampleDir [] []);
      [reflexivity|reflexivity|reflexivity|constructor]. }
  split; [exact Hd|].
  pose proof (findEntry_descends_then_looks_up sampleStore sampleRoot "dir/inner.txt")
    as [H1 _].
  destruct (H1 _ _ Hd) as (Hres & Hgets & _).
  split; [exact Hres|]. split; [exact Hgets|].
  split; [|split].
  - apply (proj2 (findEntry_descends_then_looks_up sampleStore sampleRoot "gone/inner.txt")
             [] "gone"%string ["inner.txt"%string] [] sampleRoot eq_refl);
      [done|constructor|].
    right; left. exists goneEntry. split; reflexivity.
  - apply (proj2 (findEntry_descends_then_looks_up sampleStore sampleRoot "sub/inner.txt")
             [] "sub"%string ["inner.txt"%string] [] sampleRoot eq_refl);
      [done|constructor|].
    right; right. exists subEntry, sampleCommit. repeat split; done.
  - apply (proj2 (findEntry_descends_then_looks_up sampleStore sampleRoot "nope/inner.txt")
             [] "nope"%string ["inner.txt"%string] [] sampleRoot eq_refl);
      [done|constructor|].
    left. reflexivity.
Defined.

(** C3, as the code has it.  [Tree.File] fails with [ErrFileNotFound] when
    [findEntry] fails, when the storage reports the object of the entry
    found as not found, and when that object is of any kind other than
    blob; another error of the storage is returned as it is.  Otherwise
    the result is a File that carries the path given, the mode of the
    entry and the object decoded as a Blob. *)
Theorem Tree_File_outcomes (s : ObjectStorage) (t : Tree) (path : string) :
  snd (fst (Tree_File s t path)) =
  match snd (fst (findEntry s t path)) with
  | inl _ => inl ErrFileNotFound
  | inr e =>
      match s (EHash e) with
      | inl err => inl (if decide (err = ErrObjectNotFound) then ErrFileNotFound else err)
      | inr obj =>
          if decide (oType obj = BlobObject)
          then inr (mkFile path (Mode e) (Blob_Decode obj))
          else inl ErrFileNotFound
      end
  end.
Proof.
  unfold Tree_File, Get, tell, bind, ret.
  destruct (findEntry s t path) as [[t1 [err|e]] tr]; cbv beta iota zeta;
    cbn [fst snd]; [done|].
  destruct (s (EHash e)) as [err|obj]; cbv beta iota zeta.
  - destruct (decide (err = ErrObjectNotFound)); reflexivity.
  - destruct (decide (oType obj = BlobObject)) as [Hb|Hb].
    + rewrite decide_False by (by intros H). reflexivity.
    + rewrite decide_True by done. reflexivity.
Qed.

(** C3 as stated fails on the sample repository.  For the path [sub] the
    lookup succeeds, the object is stored and it is a commit, not a tree,
    and [Tree.File] still fails with [ErrFileNotFound]: none of the three
    cases of the claim holds.  For the path [dir/inner.txt] the File
    returned is named by the whole path, not by the entry's name. *)
Lemma Tree_File_fails_outside_three_cases :
  snd (fst (Tree_File sampleStore sampleRoot "sub")) = inl ErrFileNotFound
  ∧ snd (fst (findEntry sampleStore sampleRoot "sub")) = inr subEntry
  ∧ sampleStore (EHash subEntry) = inr sampleCommit
  ∧ oType sampleCommit ≠ TreeObject
  ∧ (∃ f e, snd (fst (Tree_File sampleStore sampleRoot "dir/inner.txt")) = inr f
            ∧ snd (fst (findEntry sampleStore sampleRoot "dir/inner.txt")) = inr e
            ∧ FName f = "dir/inner.txt"%string ∧ Name e = "inner.txt"%string
            ∧ FName f ≠ Name e).
Proof.
  split; [reflexivity|]. split; [reflexivity|]. split; [reflexivity|].
  split; [done|]. eexists _, _. split; [reflexivity|]. split; [reflexivity|].
  repeat split; done.
Qed.

(** ** The depth guard of the walker on a chain of directories *)

Lemma natOfHash_hashOfNat k : (k < 256 * 256)%nat → natOfHash (hashOfNat k) = k.
Proof.
  intros Hk. unfold natOfHash, hashOfNat. cbn [repeatByte String.get].
  assert (k / 256 < 256)%nat by (apply Nat.Div0.div_lt_upper_bound; lia).
  assert (k mod 256 < 256)%nat by (apply Nat.mod_upper_bound; lia).
  rewrite !nat_ascii_embedding by done.
  rewrite (Nat.div_mod_eq k 256) at 3. lia.
Qed.

Lemma hashOfNat_length k : String.length (hashOfNat k) = hashSize.
Proof. reflexivity. Qed.

Lemma Decode_chainObject n k :
  Decode emptyTree (chainObject n k) = mkDecodeOut (chainTree n k) None true.
Proof.
  unfold chainObject, chainTree, chainEntry, chainBody.
  destruct (decide (k < n)%nat); reflexivity.
Qed.

Lemma resolve_chain_dir n k :
  (1 ≤ k ≤ n)%nat → (k < 256 * 256)%nat →
  resolve (chainStore n) (hashOfNat k) = inr (GTree (chainTree n k)).
Proof.
  intros Hk Hb. unfold resolve, chainStore. rewrite natOfHash_hashOfNat by done.
  rewrite decide_False by lia. rewrite decide_True by lia.
  cbn [oType chainObject]. by rewrite Decode_chainObject.
Qed.

Lemma resolve_chain_blob n :
  resolve (chainStore n) (hashOfNat 0) = inr (GBlob (Blob_Decode chainBlob)).
Proof. reflexivity. Qed.

Lemma chainBelow_length n k : length (chainBelow n k) = k.
Proof. induction k as [|k IH]; simpl; [done|]. by rewrite IH. Qed.

Lemma chainBelow_succ n k :
  (1 ≤ k)%nat →
  mkFrame (mkTreeEntryIter (chainTree n k) 1) (chainPath k) :: chainBelow n (k - 1)
  = chainBelow n k.
Proof. intros Hk. destruct k as [|k]; [lia|]. simpl. by rewrite Nat.sub_0_r. Qed.

Lemma chainPath_succ k : (1 ≤ k)%nat → joinPath (chainPath k) "d" = chainPath (S k).
Proof. intros Hk. destruct k as [|k]; [lia|]. reflexivity. Qed.

Lemma chain_iter_first n k :
  treeEntryIter_Next (mkTreeEntryIter (chainTree n k) 0)
  = (mkTreeEntryIter (chainTree n k) 1, inr (chainEntry n k)).
Proof. reflexivity. Qed.

Lemma chain_iter_done n k :
  treeEntryIter_Next (mkTreeEntryIter (chainTree n k) 1)
  = (mkTreeEntryIter (chainTree n k) 1, inl EOF).
Proof. reflexivity. Qed.

Lemma chainEntry_dir n k :
  (k < n)%nat →
  EHash (chainEntry n k) = hashOfNat (S k) ∧ Name (chainEntry n k) = "d"%string.
Proof. intros H. unfold chainEntry. by rewrite decide_True. Qed.

Lemma chainEntry_leaf n k :
  (n ≤ k)%nat →
  EHash (chainEntry n k) = hashOfNat 0 ∧ Name (chainEntry n k) = "f"%string.
Proof. intros H. unfold chainEntry. by rewrite decide_False by lia. Qed.

(** In front of a directory entry, with room for one more frame: the
    entry is yielded and the frame of the next directory is pushed. *)
Lemma specNext_chain_push n k :
  (1 ≤ k < n)%nat → (k < maxTreeDepth)%nat → (n < 256 * 256)%nat →
  specNext (chainStore n) (chainStack n k)
  = (chainStack n (S k),
     inr (chainPath (S k), chainEntry n k, GTree (chainTree n (S k)))).
Proof.
  intros Hk Hd Hn. destruct (chainEntry_dir n k) as [Hh Hm]; [lia|].
  unfold chainStack. cbn [specNext fIter fBase]. rewrite chain_iter_first.
  rewrite Hh, Hm, resolve_chain_dir by lia. rewrite chainBelow_succ by lia.
  rewrite chainBelow_length, decide_False by lia.
  rewrite chainPath_succ by lia. by rewrite Nat.sub_succ, Nat.sub_0_r.
Qed.

(** In front of a directory entry with [maxTreeDepth] frames on the
    stack: the call fails and the stack does not grow. *)
Lemma specNext_chain_full n k :
  (1 ≤ k < n)%nat → (maxTreeDepth ≤ k)%nat → (n < 256 * 256)%nat →
  specNext (chainStore n) (chainStack n k) = (chainBelow n k, inl ErrMaxTreeDepth).
Proof.
  intros Hk Hd Hn. destruct (chainEntry_dir n k) as [Hh Hm]; [lia|].
  unfold chainStack. cbn [specNext fIter fBase]. rewrite chain_iter_first.
  rewrite Hh, resolve_chain_dir by lia. rewrite chainBelow_succ by lia.
  by rewrite chainBelow_length, decide_True by lia.
Qed.

(** In the innermost directory the file is yielded and nothing is pushed. *)
Lemma specNext_chain_leaf n :
  (1 ≤ n)%nat →
  specNext (chainStore n) (chainStack n n)
  = (chainBelow n n,
     inr (joinPath (chainPath n) "f", chainEntry n n, GBlob (Blob_Decode chainBlob))).
Proof.
  intros Hn. destruct (chainEntry_leaf n n) as [Hh Hm]; [lia|].
  unfold chainStack. cbn [specNext fIter fBase]. rewrite chain_iter_first.
  rewrite Hh, Hm, resolve_chain_blob. by rewrite chainBelow_succ by lia.
Qed.

(** Frames whose one entry is taken are popped one after the other. *)
Lemma specNext_chain_done n k : specNext (chainStore n) (chainBelow n k) = ([], inl EOF).
Proof.
  induction k as [|k IH]; [done|].
  cbn [chainBelow specNext fIter]. by rewrite chain_iter_done.
Qed.

(** A chain of at most [maxTreeDepth] directories is walked to the end. *)
Lemma walk_chain_completes n d : ∀ k fuel,
  (1 ≤ k)%nat → (k + d = n)%nat → (n ≤ maxTreeDepth)%nat → (d + 2 ≤ fuel)%nat →
  ∃ items, walk specWalker (chainStore n) fuel (chainStack n k) = Some (items, EOF, [])
           ∧ length items = S d.
Proof.
  unfold maxTreeDepth.
  induction d as [|d IH]; intros k fuel Hk Hkn Hn Hfuel.
  - assert (k = n) as -> by lia.
    destruct fuel as [|[|fuel]]; [lia|lia|].
    cbn [walk wStep specWalker]. rewrite specNext_chain_leaf by done.
    rewrite specNext_chain_done. eexists. split; [done|done].
  - destruct fuel as [|fuel]; [lia|].
    cbn [walk wStep specWalker].
    rewrite specNext_chain_push by (unfold maxTreeDepth; lia).
    destruct (IH (S k) fuel) as (items & Hw & Hl); [lia..|].
    cbn [wStep specWalker] in Hw. rewrite Hw. eexists. split; [done|].
    simpl. by rewrite Hl.
Qed.

(** On a longer chain the walk yields the directories up to number
    [maxTreeDepth] and fails on the call for the next one. *)
Lemma walk_chain_fails n d : ∀ k fuel,
  (1 ≤ k)%nat → (k + d = maxTreeDepth)%nat → (maxTreeDepth < n < 256 * 256)%nat →
  (d + 1 ≤ fuel)%nat →
  ∃ items, walk specWalker (chainStore n) fuel (chainStack n k)
             = Some (items, ErrMaxTreeDepth, chainBelow n maxTreeDepth)
           ∧ length items = d.
Proof.
  induction d as [|d IH]; intros k fuel Hk Hkd Hn Hfuel.
  - assert (k = maxTreeDepth) as -> by lia.
    destruct fuel as [|fuel]; [lia|].
    cbn [walk wStep specWalker]. rewrite specNext_chain_full by (unfold maxTreeDepth in *; lia).
    eexists. split; [done|done].
  - destruct fuel as [|fuel]; [lia|].
    cbn [walk wStep specWalker].
    rewrite specNext_chain_push by (unfold maxTreeDepth in *; lia).
    destruct (IH (S k) fuel) as (items & Hw & Hl); [lia..|].
    cbn [wStep specWalker] in Hw. rewrite Hw. eexists. split; [done|].
    simpl. by rewrite Hl.
Qed.

Lemma chainRoot_eq n : chainRoot n = chainTree n 1.
Proof. unfold chainRoot. by rewrite Decode_chainObject. Qed.

(** C5. On a chain of 1025 nested single-entry directories the walker
    yields 1023 entries and fails with [ErrMaxTreeDepth] on the next call,
    the one that would push the 1025th frame onto a stack of 1024; on a
    chain of exactly 1024 it yields all 1024 entries and ends with
    [io.EOF]. *)
Theorem walker_depth_guard :
  (∃ items stack,
     walk specWalker (chainStore 1025) 1024
          (wInit specWalker (chainStore 1025) (chainRoot 1025))
       = Some (items, ErrMaxTreeDepth, stack)
     ∧ length items = 1023%nat ∧ length stack = 1024%nat)
  ∧ (∃ items,
       walk specWalker (chainStore 1024) 1025
            (wInit specWalker (chainStore 1024) (chainRoot 1024))
         = Some (items, EOF, [])
       ∧ length items = 1024%nat).
Proof.
  split.
  - destruct (walk_chain_fails 1025 1023 1 1024) as (items & Hw & Hl);
      [lia|reflexivity|unfold maxTreeDepth; lia|lia|].
    exists items, (chainBelow 1025 maxTreeDepth).
    cbn [wInit specWalker]. rewrite chainRoot_eq. split; [exact Hw|].
    split; [exact Hl|apply chainBelow_length].
  - destruct (walk_chain_completes 1024 1023 1 1025) as (items & Hw & Hl);
      [lia|reflexivity|unfold maxTreeDepth; lia|lia|].
    exists items. cbn [wInit specWalker]. rewrite chainRoot_eq. split; [exact Hw|exact Hl].
Qed.

(** ** The callback loop *)

Section forEach.
Context {H A C : Type}.
Variable next : H → option (H * (error + A)).
Variable cb : C → A → C * option error.

(** When the iterator's sequence is [items] followed by the error
    [final], the loop returns what the push-style traversal of the
    specification returns. *)
Lemma forEachLoop_pushes fuel : ∀ h c items final hfin,
  drain next fuel h = Some (items, final, hfin) →
  ∃ h1, forEachLoop next cb fuel h c
        = Some (h1, (pushAll cb c items final).1, (pushAll cb c items final).2).
Proof.
  induction fuel as [|fuel IH]; intros h c items final hfin; [done|].
  cbn [drain forEachLoop]. destruct (next h) as [[h1 [err|x]]|]; cbn; [| |done].
  - intros [= <- <- <-]. cbn. eauto.
  - destruct (drain next fuel h1) as [[[xs e'] h2]|] eqn:E; cbn; [|done].
    intros [= <- <- <-]. cbn [pushAll].
    destruct (cb c x) as [c1 [err|]]; cbn; [eauto|].
    by eapply IH.
Qed.

(** Whatever relates the heaps across one [Next] relates them across
    the whole loop. *)
Lemma forEachLoop_invariant (R : H → H → Prop) :
  (∀ h1 h2 h3, R h1 h2 → R h2 h3 → R h1 h3) →
  (∀ h h' r, next h = Some (h', r) → R h h') →
  ∀ fuel h c h1 c1 err,
    forEachLoop next cb fuel h c = Some (h1, c1, err) → R h h1.
Proof.
  intros Htrans Hnext. induction fuel as [|fuel IH]; intros h c h1 c1 err; [done|].
  cbn [forEachLoop]. destruct (next h) as [[h' [e|x]]|] eqn:E; cbn; [| |done].
  - intros [= <- <- <-]. eauto.
  - destruct (cb c x) as [c' [e|]].
    + intros [= <- <- <-]. eauto.
    + intros Hl. eapply Htrans; [by eapply Hnext|by eapply IH].
Qed.
End forEach.

Lemma advanced_trans {Cell St} (proj : Cell → TreeWalker St) i (h1 h2 h3 : gmap loc Cell) :
  advanced proj i h1 h2 → advanced proj i h2 h3 → advanced proj i h1 h3.
Proof.
  intros [Ho (it & it' & H1 & H2 & Hr & Ht & Hc)] [Ho' (it2 & it3 & H3 & H4 & Hr' & Ht' & Hc')].
  rewrite H2 in H3. injection H3 as <-.
  split; [intros l Hl; by rewrite Ho', Ho|].
  exists it, it3. repeat split; try done; congruence.
Qed.

(** ** FileIter and TreeIter: one step *)

Lemma FileIter_Next_advanced {St} (ops : WalkerOps St) fuel : ∀ h iter h' r,
  FileIter_Next ops fuel h iter = Some (h', r) → advanced fw iter h h'.
Proof.
  induction fuel as [|fuel IH]; intros h iter h' r; [done|].
  cbn [FileIter_Next]. destruct (h !! iter) as [it|] eqn:Hit; cbn; [|done].
  unfold TreeWalker_Next. destruct (wStep ops (w_r (fw it)) (wSt (fw it))) as [st res].
  assert (advanced fw iter h
            (<[iter := mkFileIter (mkTreeWalker st (w_r (fw it)) (w_t (fw it))
                                                (wClosed (fw it)))]> h)) as Hstep.
  { split; [intros l Hl; by rewrite lookup_insert_ne|].
    eexists _, _. split; [exact Hit|]. split; [apply lookup_insert_eq|]. done. }
  destruct res as [err|[[name e] obj]].
  - by intros [= <- <-].
  - destruct obj; try by intros [= <- <-].
    all: intros Hn; eapply advanced_trans; [exact Hstep|by eapply IH].
Qed.

Lemma TreeIter_Next_advanced {St} (ops : WalkerOps St) fuel : ∀ h iter h' r,
  TreeIter_Next ops fuel h iter = Some (h', r) → advanced tw iter h h'.
Proof.
  induction fuel as [|fuel IH]; intros h iter h' r; [done|].
  cbn [TreeIter_Next]. destruct (h !! iter) as [it|] eqn:Hit; cbn; [|done].
  unfold TreeWalker_Next. destruct (wStep ops (w_r (tw it)) (wSt (tw it))) as [st res].
  assert (advanced tw iter h
            (<[iter := mkTreeIter (mkTreeWalker st (w_r (tw it)) (w_t (tw it))
                                                (wClosed (tw it)))]> h)) as Hstep.
  { split; [intros l Hl; by rewrite lookup_insert_ne|].
    eexists _, _. split; [exact Hit|]. split; [apply lookup_insert_eq|]. done. }
  destruct res as [err|[[name e] obj]].
  - by intros [= <- <-].
  - destruct obj; try by intros [= <- <-].
    all: intros Hn; eapply advanced_trans; [exact Hstep|by eapply IH].
Qed.

(** [Next] reads and writes the heap at its own iterator only. *)
Lemma FileIter_Next_local {St} (ops : WalkerOps St) fuel : ∀ (h h' : gmap loc (FileIter St)) iter,
  h !! iter = h' !! iter →
  (λ x, (x.1 !! iter, x.2)) <$> FileIter_Next ops fuel h iter
  = (λ x, (x.1 !! iter, x.2)) <$> FileIter_Next ops fuel h' iter.
Proof.
  induction fuel as [|fuel IH]; intros h h' iter Heq; [done|].
  cbn [FileIter_Next]. rewrite <- Heq. destruct (h !! iter) as [it|]; cbn; [|done].
  destruct (TreeWalker_Next ops (fw it)) as [w1 res].
  destruct res as [err|[[name e] obj]].
  - cbn. by rewrite !lookup_insert_eq.
  - destruct obj; cbn; rewrite ?lookup_insert_eq; try done.
    all: apply IH; by rewrite !lookup_insert_eq.
Qed.

(** ** FileIter.ForEach and TreeIter.ForEach *)

(** The three ways out of the traversal of the specification. *)
Lemma pushAll_stop {A C} (cb : C → A → C * option error) c x c1 rest final :
  cb c x = (c1, Some ErrStop) → pushAll cb c (x :: rest) final = (c1, None).
Proof. intros H. cbn. by rewrite H. Qed.

Lemma pushAll_error {A C} (cb : C → A → C * option error) c x c1 e rest final :
  cb c x = (c1, Some e) → e ≠ ErrStop → pushAll cb c (x :: rest) final = (c1, Some e).
Proof. intros H He. cbn. rewrite H. by rewrite decide_False. Qed.

Lemma pushAll_exhausted {A C} (cb : C → A → C * option error) items : ∀ c,
  Forall (λ x, ∀ c', (cb c' x).2 = None) items →
  pushAll cb c items EOF = (foldl (λ c' x, (cb c' x).1) c items, None).
Proof.
  induction items as [|x items IH]; intros c Hall; [done|].
  apply Forall_cons in Hall as [Hx Hall]. cbn.
  specialize (Hx c). destruct (cb c x) as [c1 e]. cbn in *. subst e. by apply IH.
Qed.

Lemma fresh_loc_unused {Cell} (h : gmap loc Cell) : h !! fresh (dom h) = None.
Proof. apply not_elem_of_dom. apply is_fresh. Qed.

(** C6, as the code has it.  [ForEach] hands the iterator's items to the
    callback one by one, in the order the iterator produces them, and
    returns what the push-style traversal of the specification returns:
    [nil] at the stop sentinel, without handing over another item; any
    other error of the callback as it is; [nil] when the sequence ends with
    [io.EOF].  On each of these ways out the walker that was driven has
    been closed exactly once by the call.  For a TreeIter that is the
    walker of the receiver.  For a FileIter it is the walker of the
    iterator created for the call; the receiver is left as it was, its own
    walker not closed. *)
Theorem ForEach_pushes_and_closes_once {St C : Type} (ops : WalkerOps St) (fuel : nat) :
  (∀ (h : gmap loc (FileIter St)) iter it (cb : C → File → C * option error) c
     items final hfin,
     h !! iter = Some it →
     drain (λ hp, FileIter_Next ops fuel hp (fresh (dom h))) fuel
           (<[fresh (dom h) :=
                mkFileIter (NewTreeWalker ops (w_r (fw it)) (w_t (fw it)))]> h)
       = Some (items, final, hfin) →
     ∃ h2 wfin,
       FileIter_ForEach ops fuel h iter cb c
         = Some (h2, (pushAll cb c items final).1, (pushAll cb c items final).2)
       ∧ h2 !! fresh (dom h) = Some (mkFileIter wfin)
       ∧ wClosed wfin = 1%nat
       ∧ fresh (dom h) ≠ iter
       ∧ h2 !! iter = Some it)
  ∧ (∀ (h : gmap loc (TreeIter St)) iter it (cb : C → Tree → C * option error) c
       items final hfin,
       h !! iter = Some it →
       drain (λ hp, TreeIter_Next ops fuel hp iter) fuel h = Some (items, final, hfin) →
       ∃ h2 wfin,
         TreeIter_ForEach ops fuel h iter cb c
           = Some (h2, (pushAll cb c items final).1, (pushAll cb c items final).2)
         ∧ h2 !! iter = Some (mkTreeIter wfin)
         ∧ wClosed wfin = S (wClosed (tw it))).
Proof.
  split.
  - intros h iter it cb c items final hfin Hit Hdrain.
    pose proof (fresh_loc_unused h) as Hfresh.
    assert (fresh (dom h) ≠ iter) as Hne
      by (intros Heq; rewrite Heq in Hfresh; congruence).
    unfold FileIter_ForEach. rewrite Hit. cbn [mbind option_bind].
    destruct (forEachLoop_pushes _ cb fuel _ c _ _ _ Hdrain) as [h1 Hloop].
    pose proof (forEachLoop_invariant _ cb (advanced fw (fresh (dom h)))
                  (advanced_trans fw _)
                  (λ hp hp' r, FileIter_Next_advanced ops fuel hp _ hp' r)
                  _ _ _ _ _ _ Hloop) as [Ho (it0 & it1 & H0 & H1 & _ & _ & Hc)].
    rewrite Hloop. cbn [mbind option_bind]. unfold FileIter_Close. rewrite H1.
    cbn [mbind option_bind]. eexists _, _. split; [done|].
    rewrite lookup_insert_eq. split; [done|]. split.
    { cbn [TreeWalker_Close wClosed fw].
      rewrite Hc. rewrite lookup_insert_eq in H0. by injection H0 as <-. }
    split; [done|]. by rewrite lookup_insert_ne, Ho, lookup_insert_ne.
  - intros h iter it cb c items final hfin Hit Hdrain.
    unfold TreeIter_ForEach.
    destruct (forEachLoop_pushes _ cb fuel _ c _ _ _ Hdrain) as [h1 Hloop].
    pose proof (forEachLoop_invariant _ cb (advanced tw iter)
                  (advanced_trans tw _)
                  (λ hp hp' r, TreeIter_Next_advanced ops fuel hp _ hp' r)
                  _ _ _ _ _ _ Hloop) as [_ (it0 & it1 & H0 & H1 & _ & _ & Hc)].
    rewrite Hloop. cbn [mbind option_bind]. unfold TreeIter_Close. rewrite H1.
    cbn [mbind option_bind]. eexists _, _. split; [done|].
    rewrite lookup_insert_eq. split; [done|]. cbn [TreeWalker_Close wClosed tw].
    rewrite Hc. rewrite Hit in H0. by injection H0 as <-.
Qed.

Lemma ForEach_pushes_and_closes_once_witness :
  let hf : gmap loc (FileIter (list Frame)) :=
    {[ 0%nat := mkFileIter (NewTreeWalker specWalker sampleStore sampleWalkRoot) ]} in
  let ht : gmap loc (TreeIter (list Frame)) :=
    {[ 0%nat := mkTreeIter (NewTreeWalker specWalker sampleStore sampleWalkRoot) ]} in
  (∃ h2 wfin,
     FileIter_ForEach specWalker 10 hf 0%nat recordAndStop []
       = Some (h2, ["dir/inner.txt"%string], None)
     ∧ h2 !! 1%nat = Some (mkFileIter wfin) ∧ wClosed wfin = 1%nat
     ∧ h2 !! 0%nat = hf !! 0%nat)
  ∧ (∃ h2 wfin,
       TreeIter_ForEach specWalker 10 ht 0%nat recordHash []
         = Some (h2, [hashOfNat 2], None)
       ∧ h2 !! 0%nat = Some (mkTreeIter wfin) ∧ wClosed wfin = 1%nat).
Proof.
  intros hf ht. split.
  - destruct (drain (λ hp, FileIter_Next specWalker 10 hp (fresh (dom hf))) 10
                (<[fresh (dom hf) :=
                     mkFileIter (NewTreeWalker specWalker sampleStore sampleWalkRoot)]> hf))
      as [[[items final] hfin]|] eqn:E; [|by vm_compute in E].
    destruct (proj1 (ForEach_pushes_and_closes_once specWalker 10)
                hf 0%nat _ recordAndStop [] items final hfin eq_refl E)
      as (h2 & wfin & HF & Hl & Hc & _ & Hrecv).
    exists h2, wfin. split; [|split; [exact Hl|split; [exact Hc|exact Hrecv]]].
    rewrite HF. vm_compute in E. injection E as <- <- <-. reflexivity.
  - destruct (drain (λ hp, TreeIter_Next specWalker 10 hp 0%nat) 10 ht)
      as [[[items final] hfin]|] eqn:E; [|by vm_compute in E].
    destruct (proj2 (ForEach_pushes_and_closes_once specWalker 10)
                ht 0%nat _ recordHash [] items final hfin eq_refl E)
      as (h2 & wfin & HF & Hl & Hc).
    exists h2, wfin. split; [|split; [exact Hl|exact Hc]].
    rewrite HF. vm_compute in E. injection E as <- <- <-. reflexivity.
Defined.

(** C6 as stated fails for a FileIter.  On the sample repository
    [FileIter.ForEach] hands the one file to the callback and returns
    [nil], and afterwards the walker of the iterator the call was made on
    has been closed zero times, not once: the one [Close] went to the
    walker of the iterator the call created for itself. *)
Lemma FileIter_ForEach_receiver_walker_not_closed :
  ∃ h2 w0 w1,
    FileIter_ForEach specWalker 10
      ({[ 0%nat := mkFileIter (NewTreeWalker specWalker sampleStore sampleWalkRoot) ]}
         : gmap loc (FileIter (list Frame)))
      0%nat recordName []
    = Some (h2, ["dir/inner.txt"%string], None)
    ∧ h2 !! 0%nat = Some (mkFileIter w0) ∧ wClosed w0 = 0%nat
    ∧ h2 !! 1%nat = Some (mkFileIter w1) ∧ wClosed w1 = 1%nat.
Proof.
  destruct (FileIter_ForEach specWalker 10
              ({[ 0%nat := mkFileIter (NewTreeWalker specWalker sampleStore sampleWalkRoot) ]}
                 : gmap loc (FileIter (list Frame)))
              0%nat recordName []) as [[[h2 c'] err]|] eqn:E; [|by vm_compute in E].
  vm_compute in E. injection E as <- <- <-.
  eexists _, _, _. split; [reflexivity|]. repeat split; reflexivity.
Qed.

(** C9. [FileIter.ForEach] allocates a new iterator, whose walker is bound
    to the repository and the root tree of the receiver's walker, runs the
    loop on it and closes it, once.  Nothing else in the heap changes: the
    receiver is as it was, its walker not closed and not advanced, so a
    [Next] on the receiver after the call gives what it would have given
    before. *)
Theorem FileIter_ForEach_leaves_receiver {St C : Type} (ops : WalkerOps St)
    (fuel : nat) (h : gmap loc (FileIter St)) (iter : loc) (it : FileIter St)
    (cb : C → File → C * option error) (c : C)
    (h2 : gmap loc (FileIter St)) (c' : C) (err : option error) :
  h !! iter = Some it →
  FileIter_ForEach ops fuel h iter cb c = Some (h2, c', err) →
  let i := fresh (dom h) in
  h !! i = None ∧ i ≠ iter
  ∧ (∃ h1, forEachLoop (λ hp, FileIter_Next ops fuel hp i) cb fuel
             (<[i := mkFileIter (NewTreeWalker ops (w_r (fw it)) (w_t (fw it)))]> h) c
           = Some (h1, c', err))
  ∧ (∃ wfin, h2 !! i = Some (mkFileIter wfin)
       ∧ w_r wfin = w_r (fw it) ∧ w_t wfin = w_t (fw it) ∧ wClosed wfin = 1%nat)
  ∧ h2 !! iter = Some it
  ∧ (∀ l, l ≠ i → h2 !! l = h !! l)
  ∧ (∀ f, (λ x, (x.1 !! iter, x.2)) <$> FileIter_Next ops f h2 iter
          = (λ x, (x.1 !! iter, x.2)) <$> FileIter_Next ops f h iter).
Proof.
  intros Hit HF i. pose proof (fresh_loc_unused h) as Hfresh. fold i in Hfresh.
  assert (i ≠ iter) as Hne by (intros ->; congruence).
  unfold FileIter_ForEach in HF. rewrite Hit in HF. cbn [mbind option_bind] in HF.
  fold i in HF.
  destruct (forEachLoop _ cb fuel _ c) as [[[h1 c1] e1]|] eqn:Hloop; [|done].
  cbn [mbind option_bind] in HF.
  pose proof (forEachLoop_invariant _ cb (advanced fw i) (advanced_trans fw _)
                (λ hp hp' r, FileIter_Next_advanced ops fuel hp _ hp' r)
                _ _ _ _ _ _ Hloop) as [Ho (it0 & it1 & H0 & H1 & Hr & Ht & Hc)].
  unfold FileIter_Close in HF. rewrite H1 in HF. cbn [mbind option_bind] in HF.
  injection HF as <- <- <-.
  rewrite lookup_insert_eq in H0. injection H0 as <-. cbn in Hr, Ht, Hc.
  assert (∀ l, l ≠ i →
            <[i := mkFileIter (TreeWalker_Close ops (fw it1))]> h1 !! l = h !! l) as Hfr.
  { intros l Hl. by rewrite lookup_insert_ne, Ho, lookup_insert_ne. }
  split; [done|]. split; [done|]. split; [eauto|]. split.
  { eexists. rewrite lookup_insert_eq. split; [done|]. cbn. by rewrite Hr, Ht, Hc. }
  split; [by rewrite Hfr|]. split; [done|].
  intros f. apply FileIter_Next_local. by apply Hfr.
Qed.

Lemma FileIter_ForEach_leaves_receiver_witness :
  let it := mkFileIter (NewTreeWalker specWalker sampleStore sampleWalkRoot) in
  let h : gmap loc (FileIter (list Frame)) := {[ 0%nat := it ]} in
  ∃ h2, FileIter_ForEach specWalker 10 h 0%nat recordName []
          = Some (h2, ["dir/inner.txt"%string], None)
        ∧ h2 !! 0%nat = Some it
        ∧ (∃ wfin, h2 !! 1%nat = Some (mkFileIter wfin) ∧ wClosed wfin = 1%nat).
Proof.
  intros it h.
  destruct (FileIter_ForEach specWalker 10 h 0%nat recordName [])
    as [[[h2 c'] err]|] eqn:E; [|by vm_compute in E].
  destruct (FileIter_ForEach_leaves_receiver specWalker 10 h 0%nat it recordName []
              h2 c' err eq_refl E) as (_ & _ & _ & (wfin & Hw & _ & _ & Hc) & Hrecv & _).
  exists h2. split.
  - vm_compute in E. injection E as <- <- <-. reflexivity.
  - split; [exact Hrecv|]. exists wfin. split; [exact Hw|exact Hc].
Defined.

(* ===================================================================== *)
(** * Further properties of the codec *)

(** ** What one round of the record loop reads *)

Lemma ReadString_consumes d s a rest e :
  ReadString d s = (a, rest, e) →
  String.length s = (String.length a + String.length rest)%nat
  ∧ (e = None → (1 ≤ String.length a)%nat).
Proof.
  revert a rest e. induction s as [|c r IH]; simpl; intros a rest e.
  - intros [= <- <- <-]. split; [done|]. intros; discriminate.
  - destruct (Ascii.eqb c d).
    + intros [= <- <- <-]. simpl. split; [lia|]. intros; lia.
    + destruct (ReadString d r) as [[a' rest'] e'] eqn:E. intros [= <- <- <-].
      destruct (IH _ _ _ eq_refl) as [H1 H2]. simpl. split; [lia|]. intros; lia.
Qed.

Lemma ReadString_eof d s a rest e :
  ReadString d s = (a, rest, Some e) → rest = EmptyString ∧ e = EOF.
Proof.
  revert a rest. induction s as [|c r IH]; simpl; intros a rest.
  - by intros [= <- <- <-].
  - destruct (Ascii.eqb c d); [done|].
    destruct (ReadString d r) as [[a' rest'] e'] eqn:E. intros [= <- <- ->].
    by eapply IH.
Qed.

Lemma ReadString_no_delim d s :
  contains d s = false → ReadString d s = (s, EmptyString, Some EOF).
Proof.
  induction s as [|c r IH]; simpl; [done|].
  intros [Hc Hr]%orb_false_elim. by rewrite Hc, (IH Hr).
Qed.

Lemma splitAt_consumes n : ∀ s a rest,
  splitAt n s = Some (a, rest) → String.length s = (n + String.length rest)%nat.
Proof.
  induction n as [|n IH]; simpl; intros s a rest.
  - by intros [= <- <-].
  - destruct s as [|c r]; [done|].
    destruct (splitAt n r) as [[a' rest']|] eqn:E; [|done].
    intros [= <- <-]. apply IH in E. simpl. lia.
Qed.

Lemma splitAt_short n : ∀ s, (String.length s < n)%nat → splitAt n s = None.
Proof.
  induction n as [|n IH]; simpl; intros s Hs; [lia|].
  destruct s as [|c r]; [done|]. simpl in Hs. by rewrite IH by lia.
Qed.

(** Every entry the loop appends stands for at least 22 bytes of input: a
    space, a NUL and the 20 bytes of the hash. *)
Lemma decodeLoop_appends fuel : ∀ r acc es err,
  decodeLoop fuel r acc = Some (es, err) →
  ∃ new, es = acc ++ new ∧ (22 * length new ≤ String.length r)%nat.
Proof.
  induction fuel as [|fuel IH]; intros r acc es err; [done|].
  cbn [decodeLoop].
  destruct (ReadString SP r) as [[mode r1] e1] eqn:E1.
  apply ReadString_consumes in E1 as [L1 N1].
  assert (∀ e', Some (acc, e') = Some (es, err) →
            ∃ new, es = acc ++ new ∧ (22 * length new ≤ String.length r)%nat) as Hstop.
  { intros e' [= <- <-]. exists []. rewrite app_nil_r. split; [done|simpl; lia]. }
  destruct e1 as [e|]; [case_decide; apply Hstop|]. specialize (N1 eq_refl).
  destruct (decodeFileMode (dropLast mode)) as [fm e].
  destruct (failing e); [apply Hstop|].
  destruct (ReadString NUL r1) as [[name r2] e2] eqn:E2.
  pose proof (ReadString_consumes _ _ _ _ _ E2) as [L2 N2].
  destruct (failing e2) eqn:F2; [apply Hstop|].
  unfold ReadFull. destruct (splitAt hashSize r2) as [[hash r3]|] eqn:E3.
  - apply splitAt_consumes in E3. unfold hashSize in E3. intros Hrec.
    apply IH in Hrec as (new & -> & Hlen).
    exists (mkTreeEntry (dropLast name) fm hash :: new).
    rewrite <- app_assoc. split; [done|]. simpl.
    assert (1 ≤ String.length name)%nat.
    { destruct e2 as [e2'|]; [|by apply N2].
      apply ReadString_eof in E2 as [-> _]. simpl in E3. lia. }
    lia.
  - case_decide; apply Hstop.
Qed.

(** The result of the loop does not depend on the fuel, once there is
    more of it than input. *)
Lemma decodeLoop_fuel f1 : ∀ f2 r acc,
  (String.length r < f1)%nat → (String.length r < f2)%nat →
  decodeLoop f1 r acc = decodeLoop f2 r acc.
Proof.
  induction f1 as [|f1 IH]; intros f2 r acc H1 H2; [lia|].
  destruct f2 as [|f2]; [lia|]. cbn [decodeLoop].
  destruct (ReadString SP r) as [[mode r1] e1] eqn:E1.
  apply ReadString_consumes in E1 as [L1 N1].
  destruct e1 as [e|]; [done|]. specialize (N1 eq_refl).
  destruct (decodeFileMode (dropLast mode)) as [fm e].
  destruct (failing e); [done|].
  destruct (ReadString NUL r1) as [[name r2] e2] eqn:E2.
  apply ReadString_consumes in E2 as [L2 _].
  destruct (failing e2); [done|].
  unfold ReadFull.
  destruct (splitAt hashSize r2) as [[hash r3]|] eqn:E3; [|by case_decide].
  apply splitAt_consumes in E3. apply IH; lia.
Qed.

Lemma encodeEntries_cons_append e es rest :
  encodeEntries (e :: es) +:+ rest =
  fmtOctal (Mode e)
    +:+ String SP (Name e +:+ String NUL (EHash e +:+ (encodeEntries es +:+ rest))).
Proof.
  rewrite encodeEntries_cons. rewrite !append_assoc_s. cbn [String.append].
  rewrite !append_assoc_s. cbn [String.append]. by rewrite !append_assoc_s.
Qed.

(** Records written by [Encode] in front of any input are decoded, and
    the loop goes on with what follows them. *)
Lemma decodeLoop_records es : ∀ fuel rest acc,
  Forall roundTrips es → (length es < fuel)%nat →
  decodeLoop fuel (encodeEntries es +:+ rest) acc
  = decodeLoop (fuel - length es) rest (acc ++ es).
Proof.
  induction es as [|e es IH]; intros fuel rest acc Hes Hfuel.
  - cbn. by rewrite app_nil_r, Nat.sub_0_r.
  - destruct fuel as [|fuel]; [simpl in Hfuel; lia|].
    apply Forall_cons in Hes as [(Hname & Hhash & Hmode & Hd & Hl) Hes].
    rewrite encodeEntries_cons_append. cbn [decodeLoop].
    rewrite ReadString_delim by (apply fmtOctalAux_contains; [lia|done|done]).
    rewrite dropLast_snoc, decodeFileMode_fmtOctal by done. cbn [failing].
    rewrite ReadString_delim by done. cbn [failing]. rewrite dropLast_snoc.
    rewrite ReadFull_hash by done.
    rewrite IH by (done || simpl in Hfuel; lia).
    rewrite <- app_assoc. cbn [length Nat.sub]. by destruct e.
Qed.

(** [Tree.Decode] on a body that starts with encoded records: the result
    is that of the loop on what follows them. *)
Lemma Decode_after_records t o es rest es' err :
  oType o = TreeObject → oSize o ≠ 0 → oReaderErr o = None →
  oBody o = encodeEntries es +:+ rest → Forall roundTrips es →
  decodeLoop (S (String.length rest)) rest es = Some (es', err) →
  Decode t o = mkDecodeOut (mkTree es' (ObjHash o) None)
                           (checkClose (oCloseErr o) err) true.
Proof.
  intros Ht Hs Hr Hb Hes Hloop. unfold Decode.
  rewrite decide_False by (by intros H). rewrite decide_False by done.
  rewrite Hr, Hb.
  pose proof (encodeEntries_length es) as Hl.
  rewrite decodeLoop_records by (done || rewrite length_append_s; lia).
  rewrite (decodeLoop_fuel _ (S (String.length rest))) by (rewrite ?length_append_s; lia).
  cbn [app]. by rewrite Hloop.
Qed.

(** ** Well-formed records in front of any input *)

Lemma recordsBytes_cons_append r rs rest :
  recordsBytes (r :: rs) +:+ rest =
  rMode r +:+ String SP (rName r +:+ String NUL (rHash r +:+ (recordsBytes rs +:+ rest))).
Proof.
  cbn [recordsBytes]. unfold recordBytes. rewrite !append_assoc_s. cbn [String.append].
  rewrite !append_assoc_s. cbn [String.append]. by rewrite ?append_assoc_s.
Qed.

Lemma recordsBytes_length rs : (length rs ≤ String.length (recordsBytes rs))%nat.
Proof.
  induction rs as [|r rs IH]; [done|].
  cbn [recordsBytes length]. unfold recordBytes.
  rewrite !length_append_s. cbn [String.length]. lia.
Qed.

(** Well-formed records in front of any input are decoded, each to its
    entry, and the loop goes on with what follows them. *)
Lemma decodeLoop_raw_records rs : ∀ fuel rest acc,
  Forall wellFormedRecord rs → (length rs < fuel)%nat →
  decodeLoop fuel (recordsBytes rs +:+ rest) acc
  = decodeLoop (fuel - length rs) rest (acc ++ map entryOfRecord rs).
Proof.
  induction rs as [|r rs IH]; intros fuel rest acc Hrs Hfuel.
  - cbn. by rewrite app_nil_r, Nat.sub_0_r.
  - destruct fuel as [|fuel]; [simpl in Hfuel; lia|].
    apply Forall_cons in Hrs as [(Hm & Hd & Hn & Hh) Hrs].
    rewrite recordsBytes_cons_append. cbn [decodeLoop].
    rewrite ReadString_delim by done. rewrite dropLast_snoc.
    cbn [map]. unfold entryOfRecord at 1.
    destruct (decodeFileMode (rMode r)) as [fm e]. cbn [fst snd] in Hd |- *. subst e.
    cbn [failing].
    rewrite ReadString_delim by done. cbn [failing]. rewrite dropLast_snoc.
    rewrite ReadFull_hash by done.
    rewrite IH by (done || simpl in Hfuel; lia).
    rewrite <- app_assoc. by cbn [length Nat.sub app].
Qed.

(** [Tree.Decode] on a body that starts with well-formed records: the
    result is that of the loop on what follows them. *)
Lemma Decode_after_raw_records t o rs rest es' err :
  oType o = TreeObject → oSize o ≠ 0 → oReaderErr o = None →
  oBody o = recordsBytes rs +:+ rest → Forall wellFormedRecord rs →
  decodeLoop (S (String.length rest)) rest (map entryOfRecord rs) = Some (es', err) →
  Decode t o = mkDecodeOut (mkTree es' (ObjHash o) None)
                           (checkClose (oCloseErr o) err) true.
Proof.
  intros Ht Hs Hr Hb Hrs Hloop. unfold Decode.
  rewrite decide_False by (by intros H). rewrite decide_False by done.
  rewrite Hr, Hb.
  pose proof (recordsBytes_length rs) as Hl.
  rewrite decodeLoop_raw_records by (done || rewrite length_append_s; lia).
  rewrite (decodeLoop_fuel _ (S (String.length rest))) by (rewrite ?length_append_s; lia).
  cbn [app]. by rewrite Hloop.
Qed.

Lemma sampleRecords_wellFormed : Forall wellFormedRecord sampleRecords.
Proof. repeat constructor; try (by vm_compute); cbn; lia. Qed.

Lemma append_empty_r (s : string) : s +:+ EmptyString = s.
Proof. induction s as [|c r IH]; simpl; by rewrite ?IH. Qed.

(** X1. Round trip through the codec, into any receiver: for a tree with
    at least one entry, all of them entries the codec carries through,
    [Encode] into a blank object succeeds, and [Decode] of that object,
    into a tree that may hold entries and an index of its own, succeeds
    and leaves exactly the entries encoded, in order and field by field,
    with the object's hash and no index. *)
Theorem codec_round_trip (t t0 : Tree) (o : Object) :
  blankObject o → Forall roundTrips (Entries t) → Entries t ≠ [] →
  snd (Encode t o) = None
  ∧ oType (fst (Encode t o)) = TreeObject
  ∧ oSize (fst (Encode t o)) = Z.of_nat (String.length (oBody (fst (Encode t o))))
  ∧ Decode t0 (fst (Encode t o))
    = mkDecodeOut (mkTree (Entries t) (ObjHash (fst (Encode t o))) None) None true.
Proof.
  intros (Hb & Hr & Hc & Hw) Hes Hne.
  assert (Encode t o = (mkObject TreeObject
            (Z.of_nat (String.length (encodeEntries (Entries t))))
            (encodeEntries (Entries t)) (oHasher o) None None None, None)) as ->.
  { unfold Encode, SetSize, WriteBytes, SetType. cbn. by rewrite Hw, Hb, Hr, Hc. }
  cbn [fst snd oType oSize oBody]. split; [done|]. split; [done|]. split; [done|].
  pose proof (encodeEntries_length (Entries t)) as Hl.
  rewrite (Decode_after_records t0 _ (Entries t) EmptyString (Entries t) None);
    try done.
  - cbn [oSize]. destruct (Entries t); [done|]. cbn [length] in Hl. lia.
  - cbn [oBody]. by rewrite append_empty_r.
Qed.

Lemma codec_round_trip_witness :
  let t := mkTree [mkTreeEntry "a.txt" 33188 (hashOfNat 1);
                   mkTreeEntry "run.sh" 33261 (hashOfNat 2)] (hashOfNat 7) None in
  let o := NewObject (sampleHasher 7) in
  blankObject o ∧ Forall roundTrips (Entries t)
  ∧ snd (Encode t o) = None
  ∧ Decode sampleRoot (fst (Encode t o))
    = mkDecodeOut (mkTree (Entries t) (hashOfNat 7) None) None true.
Proof.
  intros t o.
  assert (blankObject o) as Hb by (repeat split).
  assert (Forall roundTrips (Entries t)) as Hr.
  { repeat constructor; try (by vm_compute); cbn; lia. }
  destruct (codec_round_trip t sampleRoot o Hb Hr ltac:(done)) as (H1 & _ & _ & H4).
  repeat split; assumption.
Defined.

(** ** Tree.Decode: size of the result, partial results, malformed input *)

(** X2. Decoding a tree object of non-zero size always comes back, and it
    yields at most one entry per 22 bytes of body; the index is reset and
    the hash is the object's. *)
Theorem Decode_entries_bounded (t : Tree) (o : Object) :
  oType o = TreeObject → oSize o ≠ 0 →
  is_Some (decodeLoop (S (String.length (oBody o))) (oBody o) [])
  ∧ (22 * length (Entries (dTree (Decode t o))) ≤ String.length (oBody o))%nat
  ∧ m (dTree (Decode t o)) = None
  ∧ THash (dTree (Decode t o)) = ObjHash o.
Proof.
  intros Ht Hs. pose proof (Decode_total o) as Htot. split; [done|].
  unfold Decode. rewrite decide_False by (by intros H). rewrite decide_False by done.
  destruct (oReaderErr o); [cbn; repeat split; lia|].
  destruct Htot as [[es err] Hl]. rewrite Hl. cbn.
  apply decodeLoop_appends in Hl as (new & -> & Hlen). by repeat split.
Qed.

Lemma Decode_entries_bounded_witness :
  oType sampleDir = TreeObject ∧ oSize sampleDir ≠ 0
  ∧ (22 * length (Entries (dTree (Decode sampleRoot sampleDir)))
     ≤ String.length (oBody sampleDir))%nat
  ∧ m (dTree (Decode sampleRoot sampleDir)) = None.
Proof.
  assert (oType sampleDir = TreeObject) as Ht by reflexivity.
  assert (oSize sampleDir ≠ 0) as Hs by (cbn; lia).
  destruct (Decode_entries_bounded sampleRoot sampleDir Ht Hs) as (_ & Hb & Hm & _).
  repeat split; assumption.
Defined.

(** X3. Whatever follows them, the well-formed records at the start of
    the body are decoded, those of directories and symlinks too: the
    receiver holds their entries, in order, in front of anything decoded
    after them, also when the call ends in an error. *)
Theorem Decode_keeps_decoded_records (t : Tree) (o : Object)
    (rs : list RawRecord) (rest : string) :
  oType o = TreeObject → oSize o ≠ 0 → oReaderErr o = None →
  oBody o = recordsBytes rs +:+ rest → Forall wellFormedRecord rs →
  ∃ more, Entries (dTree (Decode t o)) = map entryOfRecord rs ++ more.
Proof.
  intros Ht Hs Hr Hb Hrs.
  destruct (decodeLoop_total (S (String.length rest)) rest (map entryOfRecord rs))
    as [[es' err] Hl]; [lia|].
  rewrite (Decode_after_raw_records t o rs rest es' err) by done.
  apply decodeLoop_appends in Hl as (new & -> & _). by exists new.
Qed.

Lemma Decode_keeps_decoded_records_witness :
  let o := mkObject TreeObject 70 (recordsBytes sampleRecords +:+ "zz 1") (sampleHasher 8)
                    None None None in
  Forall wellFormedRecord sampleRecords
  ∧ map entryOfRecord sampleRecords
    = [dirEntry; mkTreeEntry "a.txt" 33188 (hashOfNat 1)]
  ∧ dErr (Decode emptyTree o) = Some ErrSyntax
  ∧ ∃ more, Entries (dTree (Decode emptyTree o)) = map entryOfRecord sampleRecords ++ more.
Proof.
  intros o. split; [exact sampleRecords_wellFormed|]. split; [reflexivity|].
  split; [reflexivity|].
  apply (Decode_keeps_decoded_records emptyTree o sampleRecords "zz 1");
    [reflexivity|cbn; lia|reflexivity|reflexivity|exact sampleRecords_wellFormed].
Defined.

(** X4. Bytes after the last record that hold no space are not looked at:
    after well-formed records, the call succeeds (up to the error of
    closing the reader) with exactly the entries of those records. *)
Theorem Decode_ignores_trailing_fragment (t : Tree) (o : Object)
    (rs : list RawRecord) (junk : string) :
  oType o = TreeObject → oSize o ≠ 0 → oReaderErr o = None →
  oBody o = recordsBytes rs +:+ junk → Forall wellFormedRecord rs →
  contains SP junk = false →
  Decode t o = mkDecodeOut (mkTree (map entryOfRecord rs) (ObjHash o) None)
                           (oCloseErr o) true.
Proof.
  intros Ht Hs Hr Hb Hrs Hj.
  rewrite (Decode_after_raw_records t o rs junk (map entryOfRecord rs) None) by
    (done || cbn [decodeLoop]; by rewrite ReadString_no_delim).
  done.
Qed.

Lemma Decode_ignores_trailing_fragment_witness :
  let o := mkObject TreeObject 70 (recordsBytes sampleRecords +:+ "100644")
                    (sampleHasher 8) None None None in
  contains SP "100644" = false
  ∧ Decode sampleRoot o
    = mkDecodeOut (mkTree [dirEntry; mkTreeEntry "a.txt" 33188 (hashOfNat 1)]
                          (hashOfNat 8) None) None true.
Proof.
  intros o. split; [reflexivity|].
  apply (Decode_ignores_trailing_fragment sampleRoot o sampleRecords "100644");
    [reflexivity|cbn; lia|reflexivity|reflexivity|exact sampleRecords_wellFormed
    |reflexivity].
Defined.

(** X5. After well-formed records, a record that is cut short fails the
    call and leaves the entries of the records before it in the receiver:
    with [io.EOF] when the input ends inside the name or right after its
    NUL byte, with [io.ErrUnexpectedEOF] when it ends inside the hash. *)
Theorem Decode_truncated_record (t : Tree) (o : Object) (rs : list RawRecord)
    (mode name : string) (fm : FileMode) :
  oType o = TreeObject → oSize o ≠ 0 → oReaderErr o = None →
  Forall wellFormedRecord rs →
  contains SP mode = false → decodeFileMode mode = (fm, None) →
  contains NUL name = false →
  (oBody o = recordsBytes rs +:+ (mode +:+ String SP name) →
   Decode t o = mkDecodeOut (mkTree (map entryOfRecord rs) (ObjHash o) None)
                            (Some EOF) true)
  ∧ (∀ short, (String.length short < hashSize)%nat →
       oBody o = recordsBytes rs +:+ (mode +:+ String SP (name +:+ String NUL short)) →
       Decode t o = mkDecodeOut (mkTree (map entryOfRecord rs) (ObjHash o) None)
                      (Some (if decide (short = EmptyString) then EOF
                             else ErrUnexpectedEOF)) true).
Proof.
  intros Ht Hs Hr Hrs Hm Hd Hn. split.
  - intros Hb.
    rewrite (Decode_after_raw_records t o rs _ (map entryOfRecord rs) (Some EOF)
               Ht Hs Hr Hb Hrs); [done|].
    cbn [decodeLoop]. rewrite ReadString_delim by done.
    rewrite dropLast_snoc, Hd. cbn [failing].
    rewrite ReadString_no_delim by done. reflexivity.
  - intros short Hlen Hb.
    rewrite (Decode_after_raw_records t o rs _ (map entryOfRecord rs)
               (Some (if decide (short = EmptyString) then EOF else ErrUnexpectedEOF))
               Ht Hs Hr Hb Hrs); [done|].
    cbn [decodeLoop]. rewrite ReadString_delim by done.
    rewrite dropLast_snoc, Hd. cbn [failing].
    rewrite ReadString_delim by done. cbn [failing].
    unfold ReadFull. rewrite splitAt_short by done. by case_decide.
Qed.

Lemma Decode_truncated_record_witness :
  let es := [dirEntry; mkTreeEntry "a.txt" 33188 (hashOfNat 1)] in
  let cut1 := mkObject TreeObject 70
                (recordsBytes sampleRecords +:+ ("100644" +:+ String SP "b.tx"))
                (sampleHasher 8) None None None in
  let cut2 := mkObject TreeObject 70
                (recordsBytes sampleRecords
                 +:+ ("100644" +:+ String SP ("b.txt" +:+ String NUL "1234")))
                (sampleHasher 8) None None None in
  Decode emptyTree cut1 = mkDecodeOut (mkTree es (hashOfNat 8) None) (Some EOF) true
  ∧ Decode emptyTree cut2
    = mkDecodeOut (mkTree es (hashOfNat 8) None) (Some ErrUnexpectedEOF) true.
Proof.
  intros es cut1 cut2. split.
  - refine (proj1 (Decode_truncated_record emptyTree cut1 sampleRecords "100644" "b.tx"
                     33188 eq_refl _ eq_refl sampleRecords_wellFormed
                     eq_refl eq_refl eq_refl) eq_refl).
    cbn; lia.
  - refine (proj2 (Decode_truncated_record emptyTree cut2 sampleRecords "100644" "b.txt"
                     33188 eq_refl _ eq_refl sampleRecords_wellFormed
                     eq_refl eq_refl eq_refl) "1234"%string _ eq_refl).
    + cbn; lia.
    + unfold hashSize; cbn; lia.
Defined.

(** X6. After well-formed records, a record whose mode is not a signed
    32-bit octal number fails the call with the error of
    [strconv.ParseInt], whatever follows the mode, and leaves the entries
    of the records before it in the receiver. *)
Theorem Decode_bad_mode (t : Tree) (o : Object) (rs : list RawRecord)
    (mode rest : string) (v : Z) (e : error) :
  oType o = TreeObject → oSize o ≠ 0 → oReaderErr o = None →
  Forall wellFormedRecord rs →
  contains SP mode = false → ParseInt8_32 mode = (v, Some e) →
  oBody o = recordsBytes rs +:+ (mode +:+ String SP rest) →
  (e = ErrSyntax ∨ e = ErrRange)
  ∧ Decode t o = mkDecodeOut (mkTree (map entryOfRecord rs) (ObjHash o) None)
                             (Some e) true.
Proof.
  intros Ht Hs Hr Hrs Hm Hp Hb.
  assert (e = ErrSyntax ∨ e = ErrRange) as He.
  { destruct (ParseInt8_32_range _ _ _ Hp) as [_ [?|[[= ->]|[= ->]]]]; [done|auto|auto]. }
  split; [done|].
  rewrite (Decode_after_raw_records t o rs _ (map entryOfRecord rs) (Some e)
             Ht Hs Hr Hb Hrs); [done|].
  cbn [decodeLoop]. rewrite ReadString_delim by done.
  rewrite dropLast_snoc, (decodeFileMode_error _ _ _ Hp).
  destruct He as [-> | ->]; reflexivity.
Qed.

Lemma Decode_bad_mode_witness :
  let o := mkObject TreeObject 90
             (recordsBytes sampleRecords
              +:+ ("100689" +:+ String SP ("b" +:+ String NUL (hashOfNat 2))))
             (sampleHasher 8) None None None in
  ParseInt8_32 "100689" = (0, Some ErrSyntax)
  ∧ Decode emptyTree o
    = mkDecodeOut (mkTree [dirEntry; mkTreeEntry "a.txt" 33188 (hashOfNat 1)]
                          (hashOfNat 8) None) (Some ErrSyntax) true.
Proof.
  intros o. split; [reflexivity|].
  refine (proj2 (Decode_bad_mode emptyTree o sampleRecords "100689"
                   ("b" +:+ String NUL (hashOfNat 2)) 0 ErrSyntax
                   eq_refl _ eq_refl sampleRecords_wellFormed eq_refl eq_refl eq_refl)).
  cbn; lia.
Defined.

(** ** Tree.Encode determines the entries *)

(** X7. Two entry lists that the codec carries through are equal as soon as
    [Encode] writes the same bytes for them, so distinct lists have
    distinct encodings. *)
Theorem Encode_injective (t1 t2 : Tree) (o : Object) :
  oWriterErr o = None →
  Forall roundTrips (Entries t1) → Forall roundTrips (Entries t2) →
  oBody (fst (Encode t1 o)) = oBody (fst (Encode t2 o)) →
  Entries t1 = Entries t2.
Proof.
  intros Hw H1 H2. unfold Encode. cbn. rewrite Hw. cbn. intros Hb.
  apply (inj (String.append (oBody o))) in Hb.
  pose proof (encodeEntries_length (Entries t1)) as L1.
  pose proof (encodeEntries_length (Entries t2)) as L2.
  pose proof (decodeLoop_encoded (Entries t1)
                (S (String.length (encodeEntries (Entries t1)))) [] H1 ltac:(lia)) as D1.
  pose proof (decodeLoop_encoded (Entries t2)
                (S (String.length (encodeEntries (Entries t2)))) [] H2 ltac:(lia)) as D2.
  rewrite Hb, D2 in D1. by injection D1.
Qed.
Lemma Encode_injective_witness :
  let t1 := mkTree [mkTreeEntry "a.txt" 33188 (hashOfNat 1)] (hashOfNat 1) None in
  let t2 := mkTree [mkTreeEntry "a.txt" 33188 (hashOfNat 1)] (hashOfNat 2)
                   (Some (indexOf [])) in
  let o := NewObject (sampleHasher 7) in
  Forall roundTrips (Entries t1)
  ∧ oBody (fst (Encode t1 o)) = oBody (fst (Encode t2 o))
  ∧ Entries t1 = Entries t2.
Proof.
  intros t1 t2 o.
  assert (Forall roundTrips (Entries t1)) as Hes
    by (repeat constructor; try (by vm_compute); cbn; lia).
  split; [exact Hes|]. split; [reflexivity|].
  exact (Encode_injective t1 t2 o eq_refl Hes Hes eq_refl).
Defined.

(** ** decodeFileMode: which modes come out as directories *)

(** X8. A mode string that parses decodes to a mode within 32 bits, and
    that mode is directory-classified exactly when the parsed value is
    [040000] or negative: a signed mode string is accepted, and a negative
    one wraps around to a mode with the directory bit. *)
Theorem decodeFileMode_directory_exactly (s : string) (fm : Z) :
  ParseInt8_32 s = (fm, None) →
  0 ≤ fst (decodeFileMode s) < 2 ^ 32
  ∧ (IsDir (fst (decodeFileMode s)) = true ↔ fm = 16384 ∨ fm < 0).
Proof.
  intros Hp. pose proof (ParseInt8_32_range _ _ _ Hp) as [Hr _].
  unfold decodeFileMode. rewrite Hp. cbn [failing].
  destruct (decide (fm = 16384)) as [->|H1].
  { cbn [fst]. change (Z.lor (toFileMode 16384) ModeDir) with 2147500032.
    split; [lia|]. split; [auto|reflexivity]. }
  destruct (decide (fm = 40960)) as [->|H2].
  { cbn [fst]. change (Z.lor (toFileMode 40960) ModeSymlink) with 134258688.
    split; [lia|]. split; [intros [=]|intros [?|?]; lia]. }
  cbn [fst]. unfold toFileMode. pose proof (Z.mod_pos_bound fm (2 ^ 32)) as Hb.
  split; [lia|]. rewrite IsDir_testbit, Z.testbit_true by lia.
  destruct (decide (fm < 0)) as [Hneg|Hpos].
  - replace (fm mod 2 ^ 32) with (fm + 2 ^ 32)
      by (apply Z.mod_unique with (-1); [left; lia|lia]).
    replace ((fm + 2 ^ 32) / 2 ^ 31) with 1
      by (apply Z.div_unique with (fm + 2 ^ 31); [left; lia|lia]).
    split; [auto|done].
  - rewrite (Z.mod_small fm) by lia. rewrite Z.div_small by lia.
    split; [intros [=]|intros [?|?]; lia].
Qed.

Lemma decodeFileMode_directory_exactly_witness :
  ParseInt8_32 "-1" = (-1, None)
  ∧ fst (decodeFileMode "-1") = 4294967295
  ∧ IsDir (fst (decodeFileMode "-1")) = true.
Proof.
  split; [reflexivity|]. split; [reflexivity|].
  apply (proj2 (decodeFileMode_directory_exactly "-1" (-1) eq_refl)). right. lia.
Defined.

(** ** The entry index: what a lookup finds *)

Lemma lastNamed_Some name es e :
  lastNamed name es = Some e → e ∈ es ∧ Name e = name.
Proof.
  unfold lastNamed. intros H. apply last_Some in H as [l' Hl].
  assert (e ∈ filter (λ e, Name e = name) es) as Hin
    by (rewrite Hl; apply elem_of_app; right; by apply list_elem_of_singleton).
  by apply list_elem_of_filter in Hin as [? ?].
Qed.

Lemma lastNamed_None name es :
  lastNamed name es = None ↔ ∀ e, e ∈ es → Name e ≠ name.
Proof.
  unfold lastNamed. rewrite last_None. split.
  - intros Hf e He Hn.
    assert (e ∈ filter (λ e, Name e = name) es) as Hin by (by apply list_elem_of_filter).
    rewrite Hf in Hin. by apply not_elem_of_nil in Hin.
  - intros Hall. destruct (filter _ es) as [|x l] eqn:E; [done|].
    assert (x ∈ filter (λ e, Name e = name) es) as Hin by (rewrite E; left).
    apply list_elem_of_filter in Hin as [Hx Hin]. by destruct (Hall x Hin).
Qed.

(** X9. On a tree whose index is not built yet, a lookup returns an entry
    of the entry list that carries the name asked for, and it fails, with
    [errEntryNotFound] and nothing else, exactly when no entry of the list
    carries that name. *)
Theorem entry_finds_named_entry (t : Tree) (name : string) :
  m t = None →
  (∀ e, snd (fst (entry t name)) = inr e → e ∈ Entries t ∧ Name e = name)
  ∧ (∀ err, snd (fst (entry t name)) = inl err →
       err = errEntryNotFound ∧ ∀ e, e ∈ Entries t → Name e ≠ name)
  ∧ ((∀ e, e ∈ Entries t → Name e ≠ name) →
       snd (fst (entry t name)) = inl errEntryNotFound).
Proof.
  intros Hm. rewrite (entry_unbuilt t name Hm). cbn [fst snd].
  rewrite indexOf_lookup.
  destruct (lastNamed name (Entries t)) as [e0|] eqn:E; cbn.
  - apply lastNamed_Some in E as [Hin Hn]. split; [by intros e [= <-]|].
    split; [done|]. intros Hall. by destruct (Hall e0 Hin).
  - pose proof (proj1 (lastNamed_None _ _) E) as Hnone.
    split; [done|]. split; [|done]. by intros err [= <-].
Qed.

Lemma entry_finds_named_entry_witness :
  m sampleRoot = None
  ∧ snd (fst (entry sampleRoot "sub")) = inr subEntry
  ∧ subEntry ∈ Entries sampleRoot
  ∧ snd (fst (entry sampleRoot "nope")) = inl errEntryNotFound.
Proof.
  split; [reflexivity|]. split; [reflexivity|].
  destruct (entry_finds_named_entry sampleRoot "sub" eq_refl) as (H1 & _ & _).
  destruct (H1 subEntry eq_refl) as [Hin _]. split; [exact Hin|].
  destruct (entry_finds_named_entry sampleRoot "nope" eq_refl) as (_ & _ & H3).
  apply H3. intros e He. cbn in He.
  repeat (apply elem_of_cons in He as [-> | He]; [done|]).
  by apply not_elem_of_nil in He.
Defined.

(** X10. After [Decode] of a tree object of non-zero size, whether it
    succeeded or not, a lookup answers from the entries that call left in
    the receiver: an index built before the call is gone. *)
Theorem Decode_then_entry (t : Tree) (o : Object) (name : string) :
  oType o = TreeObject → oSize o ≠ 0 →
  snd (fst (entry (dTree (Decode t o)) name))
  = found (lastNamed name (Entries (dTree (Decode t o)))).
Proof.
  intros Ht Hs.
  assert (m (dTree (Decode t o)) = None) as Hm.
  { unfold Decode. rewrite decide_False by (by intros H). rewrite decide_False by done.
    destruct (oReaderErr o); [done|]. by destruct (decodeLoop _ _ _) as [[? ?]|]. }
  rewrite (entry_unbuilt _ name Hm). cbn [fst snd]. by rewrite indexOf_lookup.
Qed.

Lemma Decode_then_entry_witness :
  let cached := fst (fst (entry sampleRoot "dir")) in
  m cached = Some (indexOf (Entries sampleRoot))
  ∧ snd (fst (entry (dTree (Decode cached sampleDir)) "inner.txt"))
    = inr (mkTreeEntry "inner.txt" 33188 (hashOfNat 1))
  ∧ snd (fst (entry (dTree (Decode cached sampleDir)) "dir")) = inl errEntryNotFound.
Proof.
  intros cached. split; [reflexivity|].
  assert (oSize sampleDir ≠ 0) as Hs by (cbn; lia).
  split.
  - exact (Decode_then_entry cached sampleDir "inner.txt" eq_refl Hs).
  - exact (Decode_then_entry cached sampleDir "dir" eq_refl Hs).
Defined.

(* ===================================================================== *)
(** * Further properties of the path resolver *)

Lemma builds_app tr1 tr2 : builds (tr1 ++ tr2) = (builds tr1 + builds tr2)%nat.
Proof. unfold builds. by rewrite filter_app, length_app. Qed.

Lemma builds_get h : builds [EvGet h] = 0%nat.
Proof. reflexivity. Qed.

Lemma builds_nil : builds [] = 0%nat.
Proof. reflexivity. Qed.

Lemma gets_get h : gets [EvGet h] = [h].
Proof. reflexivity. Qed.

Lemma gets_nil : gets [] = [].
Proof. reflexivity. Qed.

(** A lookup leaves the receiver with its entries, its hash and its index
    built, fetches nothing and builds at most once. *)
Lemma entry_exact t name :
  ∃ tr, entry t name
        = ((mkTree (Entries t) (THash t) (Some (indexView t)), found (indexView t !! name)), tr)
    ∧ gets tr = [] ∧ (builds tr ≤ 1)%nat.
Proof.
  unfold indexView. destruct (m t) as [mp|] eqn:Hm.
  - rewrite (entry_cached t mp name Hm). exists []. split; [|split; [done|vm_compute; lia]].
    destruct t; cbn in *. by subst.
  - rewrite (entry_unbuilt t name Hm). exists [EvBuildMap].
    split; [done|]. split; [done|vm_compute; lia].
Qed.

Lemma dir_exact s t seg :
  ∃ r tr, dir s t seg = ((mkTree (Entries t) (THash t) (Some (indexView t)), r), tr)
    ∧ (length (gets tr) ≤ 1)%nat ∧ (builds tr ≤ 1)%nat.
Proof.
  unfold dir. destruct (entry_exact t seg) as (tr & -> & Hg & Hb).
  unfold Get, bind, tell, ret. cbv beta iota zeta.
  destruct (found (indexView t !! seg)) as [err|e]; cbv beta iota zeta.
  - eexists _, _. split; [done|]. rewrite !app_nil_r, Hg. split; [|exact Hb]. cbn. lia.
  - destruct (s (EHash e)) as [err|obj]; cbv beta iota zeta;
      [destruct (decide (err = ErrObjectNotFound))
      |destruct (decide (oType obj ≠ TreeObject))];
      (eexists _, _; split; [reflexivity|];
       rewrite ?app_nil_r, !gets_app, !builds_app, Hg, builds_get, gets_get;
       cbn [length app]; lia).
Qed.

Lemma findEntryLoop_exact s rest : ∀ t p,
  ∃ r tr, findEntryLoop s t p rest
          = ((mkTree (Entries t) (THash t) (Some (indexView t)), r), tr)
    ∧ (length (gets tr) ≤ length rest)%nat ∧ (builds tr ≤ S (length rest))%nat.
Proof.
  induction rest as [|q rest IH]; intros t p.
  - cbn [findEntryLoop]. destruct (entry_exact t p) as (tr & -> & Hg & Hb).
    eexists _, _. split; [done|]. rewrite Hg. cbn. lia.
  - rewrite findEntryLoop_cons.
    destruct (dir_exact s t p) as (r & tr & -> & Hg & Hb).
    unfold bind, ret. cbv beta iota zeta. destruct r as [err|sub].
    + eexists _, _. split; [done|]. rewrite app_nil_r. cbn [length]. lia.
    + destruct (IH sub q) as (r' & tr' & -> & Hg' & Hb').
      eexists _, _. split; [done|].
      rewrite ?app_nil_r, !gets_app, !builds_app, !length_app. cbn [length]. lia.
Qed.

(** [Tree.File] leaves the receiver as [findEntry] leaves it, and adds one
    fetch to the trace when [findEntry] found an entry. *)
Lemma Tree_File_trace s t path :
  fst (fst (Tree_File s t path)) = fst (fst (findEntry s t path))
  ∧ snd (Tree_File s t path)
    = snd (findEntry s t path)
      ++ match snd (fst (findEntry s t path)) with
         | inl _ => []
         | inr e => [EvGet (EHash e)]
         end.
Proof.
  unfold Tree_File, Get, tell, bind, ret.
  destruct (findEntry s t path) as [[t1 [err|e]] tr]; cbv beta iota zeta; cbn [fst snd].
  - by rewrite app_nil_r.
  - destruct (s (EHash e)) as [err|obj]; cbv beta iota zeta;
      [destruct (decide (err = ErrObjectNotFound))
      |destruct (decide (oType obj ≠ BlobObject))];
      cbn [fst snd]; by rewrite ?app_nil_r.
Qed.

(** X11. Resolving a path changes nothing of the receiver but its cache:
    after [findEntry] and after [Tree.File] the tree has the entries and
    the hash it had, and its index built.  [findEntry] fetches at most one
    object per segment before the last, [Tree.File] at most one more, and
    at most one index is built per segment. *)
Theorem path_resolution_frame (s : ObjectStorage) (t : Tree) (path : string) :
  let parts := Split "/" path in
  fst (fst (findEntry s t path)) = mkTree (Entries t) (THash t) (Some (indexView t))
  ∧ fst (fst (Tree_File s t path)) = mkTree (Entries t) (THash t) (Some (indexView t))
  ∧ (length (gets (snd (findEntry s t path))) ≤ length parts - 1)%nat
  ∧ (length (gets (snd (Tree_File s t path))) ≤ length parts)%nat
  ∧ (builds (snd (Tree_File s t path)) ≤ length parts)%nat.
Proof.
  cbn zeta. destruct (Tree_File_trace s t path) as [Ht Htr]. rewrite Ht, Htr.
  unfold findEntry. pose proof (Split_nonempty "/" path) as Hne.
  destruct (Split "/" path) as [|p rest]; [done|].
  destruct (findEntryLoop_exact s rest t p) as (r & tr & -> & Hg & Hb).
  cbn [fst snd length]. replace (S (length rest) - 1)%nat with (length rest) by lia.
  split; [done|]. split; [done|]. split; [done|].
  rewrite gets_app, builds_app, length_app.
  destruct r as [err|e]; rewrite ?builds_get, ?builds_nil, ?gets_get, ?gets_nil;
    cbn [length]; lia.
Qed.

(** ** Errors of the storage *)

Lemma dir_storage_error s t seg e err :
  indexView t !! seg = Some e → s (EHash e) = inl err → err ≠ ErrObjectNotFound →
  snd (fst (dir s t seg)) = inl err.
Proof.
  intros Hi Hs Hne. unfold dir.
  destruct (entry_exact t seg) as (tr & -> & _). rewrite Hi.
  unfold Get, bind, tell, ret. cbn. rewrite Hs. by rewrite decide_False.
Qed.

Lemma findEntryLoop_dir_error s pre : ∀ p rest t seg post hs tree err,
  p :: rest = pre ++ seg :: post → post ≠ [] →
  descends s t pre hs tree → snd (fst (dir s tree seg)) = inl err →
  snd (fst (findEntryLoop s t p rest)) = inl err.
Proof.
  induction pre as [|x pre IH]; intros p rest t seg post hs tree err Heq Hpost Hd Hn.
  - simpl in Heq. injection Heq as -> ->. inversion Hd; subst.
    destruct post as [|q post]; [done|].
    rewrite findEntryLoop_cons.
    destruct (dir s tree seg) as [[t1 r] tr]. cbn in Hn. subst r. done.
  - simpl in Heq. injection Heq as -> ->.
    inversion Hd as [|? ? e obj ? hs' ? Hi Hs Ht Hd']; subst.
    destruct (dir_descends s t x e obj Hi Hs Ht) as (t1 & tr & Hdir & _).
    destruct (pre ++ seg :: post) as [|q rest'] eqn:E; [by destruct pre|].
    rewrite findEntryLoop_cons, Hdir. unfold bind, ret. cbv beta iota.
    specialize (IH q rest' _ seg post _ tree err (eq_sym E) Hpost Hd' Hn).
    destruct (findEntryLoop s (dTree (Decode emptyTree obj)) q rest') as [[t2 r2] tr2].
    cbv beta iota zeta. cbn [fst snd] in *. done.
Qed.

(** X12. An error of the storage other than [ErrObjectNotFound], met when
    the object of a segment before the last is fetched, is returned by
    [findEntry] as it is, and [Tree.File] reports it as
    [ErrFileNotFound]. *)
Theorem storage_error_on_the_way_down (s : ObjectStorage) (t : Tree)
    (path : string) (err : error) (pre : list string) (seg : string)
    (post : list string) (hs : list Hash) (tree : Tree) (e : TreeEntry) :
  err ≠ ErrObjectNotFound →
  Split "/" path = pre ++ seg :: post → post ≠ [] →
  descends s t pre hs tree →
  indexView tree !! seg = Some e → s (EHash e) = inl err →
  snd (fst (findEntry s t path)) = inl err
  ∧ snd (fst (Tree_File s t path)) = inl ErrFileNotFound.
Proof.
  intros Hne Heq Hpost Hd Hi Hs.
  assert (snd (fst (findEntry s t path)) = inl err) as Hfe.
  { unfold findEntry. destruct (Split "/" path) as [|p rest]; [by destruct pre|].
    eapply findEntryLoop_dir_error; [exact Heq|done|exact Hd|].
    by eapply dir_storage_error. }
  split; [done|]. unfold Tree_File.
  destruct (findEntry s t path) as [[t1 r] tr]. cbn in Hfe. subst r. done.
Qed.

Lemma storage_error_on_the_way_down_witness :
  snd (fst (findEntry brokenStore sampleRoot "dir/inner.txt")) = inl (ErrOther "disk")
  ∧ snd (fst (Tree_File brokenStore sampleRoot "dir/inner.txt")) = inl ErrFileNotFound.
Proof.
  apply (storage_error_on_the_way_down brokenStore sampleRoot "dir/inner.txt"
           (ErrOther "disk") [] "dir" ["inner.txt"%string] [] sampleRoot dirEntry);
    [done|reflexivity|done|constructor|reflexivity|reflexivity].
Defined.

(* ===================================================================== *)
(** * Further properties of the entry cursor and of File.Lines *)

(** X13. Calling [treeEntryIter.Next] [n] times on a cursor at position
    [p] returns the entries of the tree from position [p] on, in order, and
    moves the cursor past the ones returned; the call after the last entry
    fails with [io.EOF] and leaves the cursor where it is, so every later
    call fails the same way. *)
Theorem treeEntryIter_yields_entries_in_order (t : Tree) (p n : nat) :
  treeEntryIter_run n (mkTreeEntryIter t p)
  = (take n (drop p (Entries t)),
     mkTreeEntryIter t (p + length (take n (drop p (Entries t)))),
     if decide (length (drop p (Entries t)) < n)%nat then Some EOF else None).
Proof.
  revert p. induction n as [|n IH]; intros p.
  - cbn. rewrite take_0. cbn. rewrite Nat.add_0_r. by rewrite decide_False by lia.
  - cbn [treeEntryIter_run]. unfold treeEntryIter_Next. cbn [it_t pos].
    destruct (Entries t !! p) as [e|] eqn:E.
    + rewrite IH. rewrite (drop_S _ _ _ E). cbn [take length].
      rewrite Nat.add_succ_r. cbn [Nat.add].
      repeat case_decide; try lia; done.
    + apply lookup_ge_None in E. rewrite drop_ge by done. cbn.
      by rewrite Nat.add_0_r.
Qed.

(** ** File.Lines and the content *)

Lemma Split_length sep s : length (Split sep s) = S (countByte sep s).
Proof.
  induction s as [|c r IH]; simpl; [done|].
  pose proof (Split_nonempty sep r) as Hne.
  destruct (Ascii.eqb c sep); simpl; [by rewrite IH|].
  destruct (Split sep r) as [|h tl]; [done|]. simpl in *. lia.
Qed.

Lemma Join_snoc_empty sep l :
  l ≠ [] → Join sep (l ++ [EmptyString]) = Join sep l +:+ String sep EmptyString.
Proof.
  induction l as [|a l IH]; [done|]. intros _.
  destruct l as [|b l]; [done|].
  change (Join sep ((a :: b :: l) ++ [EmptyString]))
    with (a +:+ String sep (Join sep ((b :: l) ++ [EmptyString]))).
  rewrite IH by done.
  change (Join sep (a :: b :: l)) with (a +:+ String sep (Join sep (b :: l))).
  rewrite append_assoc_s. done.
Qed.

(** X14. The lines [File.Lines] returns give the content back: joined by
    newlines, and followed by a newline when the content ended in one.
    There are as many lines as newline bytes in the content, and one more
    when the content is not empty and does not end in a newline; no line
    holds a newline. *)
Theorem Lines_give_the_content_back (f : File) (s : string) :
  Contents f = (s, None) →
  ∃ ls, Lines f = inr ls
    ∧ s = Join LF ls +:+ (if endsWith LF s then String LF EmptyString else EmptyString)
    ∧ length ls
      = (countByte LF s
         + if decide (s = EmptyString ∨ endsWith LF s = true) then 0 else 1)%nat
    ∧ Forall (λ p, contains LF p = false) ls.
Proof.
  intros Hc. unfold Lines. rewrite Hc.
  pose proof (last_Split_empty LF s) as Hl.
  pose proof (Join_Split LF s) as Hj.
  pose proof (Split_pieces LF s) as Hp.
  pose proof (Split_length LF s) as Hn.
  destruct (decide (last (Split LF s) = Some EmptyString)) as [Hy|Hno].
  - pose proof (proj1 Hl Hy) as Hor.
    apply last_Some in Hy as [l' Hl'].
    eexists. split; [done|].
    rewrite Hl' in Hj, Hp, Hn |- *. rewrite length_app in Hn |- *. cbn [length] in Hn |- *.
    replace (length l' + 1 - 1)%nat with (length l') by lia.
    rewrite take_app_length. rewrite decide_True by done.
    apply Forall_app in Hp as [Hp _].
    split; [|split; [lia|done]].
    destruct l' as [|a l'].
    + simpl in Hj. subst s. done.
    + rewrite Join_snoc_empty in Hj by done.
      destruct Hor as [-> | ->]; [by destruct (Join LF (a :: l'))|done].
  - eexists. split; [done|].
    assert (¬ (s = EmptyString ∨ endsWith LF s = true)) as Hnot by (by rewrite <- Hl).
    rewrite decide_False by done.
    destruct (endsWith LF s); [by destruct Hnot; right|].
    rewrite append_empty_r. split; [done|]. split; [lia|done].
Qed.

Lemma Lines_give_the_content_back_witness :
  let s := ("x" +:+ String LF ("y" +:+ String LF EmptyString))%string in
  let f := mkFile "a" 33188 (Blob_Decode
             (mkObject BlobObject 4 s (λ _ _, EmptyString) None None None)) in
  ∃ ls, Lines f = inr ls
    ∧ s = Join LF ls +:+ String LF EmptyString
    ∧ length ls = 2%nat.
Proof.
  intros s f.
  destruct (Lines_give_the_content_back f s eq_refl) as (ls & H1 & H2 & H3 & _).
  exists ls. split; [exact H1|]. split; [exact H2|exact H3].
Defined.

(* ===================================================================== *)
(** * From a path to the bytes of a file *)

(** X15. When the segments of a path before the last descend through
    stored trees and the last segment names an entry whose object is a
    stored blob that can be read, [Tree.File] returns a File that carries
    the whole path as its name and the mode of the entry, [Contents] of
    that File is the body of the stored blob, and the objects fetched are
    those of the descent followed by the blob. *)
Theorem File_reads_the_stored_blob (s : ObjectStorage) (t : Tree) (path : string)
    (hs : list Hash) (tree : Tree) (e : TreeEntry) (obj : Object) :
  descends s t (removelast (Split "/" path)) hs tree →
  indexView tree !! List.last (Split "/" path) EmptyString = Some e →
  s (EHash e) = inr obj → oType obj = BlobObject →
  oReaderErr obj = None → oCloseErr obj = None →
  ∃ f, snd (fst (Tree_File s t path)) = inr f
    ∧ FName f = path ∧ FMode f = Mode e
    ∧ gets (snd (Tree_File s t path)) = hs ++ [EHash e]
    ∧ Contents f = (oBody obj, None).
Proof.
  intros Hd Hi Hs Ht Hr Hc.
  destruct (Tree_File_trace s t path) as [_ Htr].
  assert (snd (fst (findEntry s t path)) = inr e
          ∧ gets (snd (findEntry s t path)) = hs) as [Hfe Hg].
  { unfold findEntry in *. pose proof (Split_nonempty "/" path) as Hne.
    destruct (Split "/" path) as [|p rest]; [done|].
    destruct (findEntryLoop_resolves s rest p t hs tree Hd) as [H1 H2].
    by rewrite H1, Hi. }
  rewrite Htr, Hfe, gets_app, Hg, gets_get.
  unfold Tree_File. destruct (findEntry s t path) as [[t1 r] tr].
  cbn [fst snd] in Hfe. subst r.
  unfold Get, tell, bind, ret. cbv beta iota zeta. rewrite Hs. cbv beta iota zeta.
  rewrite decide_False by (intros H; by apply H). cbn [fst snd].
  eexists. split; [done|]. repeat split.
  unfold Contents. cbn. by rewrite Hr, Hc.
Qed.

Lemma File_reads_the_stored_blob_witness :
  ∃ f, snd (fst (Tree_File sampleStore sampleRoot "dir/inner.txt")) = inr f
    ∧ FName f = "dir/inner.txt"%string ∧ FMode f = 33188
    ∧ gets (snd (Tree_File sampleStore sampleRoot "dir/inner.txt"))
      = [hashOfNat 2; hashOfNat 1]
    ∧ Contents f = (("l1" +:+ String LF ("l2" +:+ String LF EmptyString))%string, None).
Proof.
  apply (File_reads_the_stored_blob sampleStore sampleRoot "dir/inner.txt"
           [hashOfNat 2] (dTree (Decode emptyTree sampleDir))
           (mkTreeEntry "inner.txt" 33188 (hashOfNat 1)) sampleBlob);
    try reflexivity.
  apply (descends_cons sampleStore sampleRoot "dir" dirEntry sampleDir [] []);
    [reflexivity|reflexivity|reflexivity|constructor].
Defined.

(* ===================================================================== *)
(** * The iterators and the walk they filter *)

(** More fuel does not change what a [Next] loop found. *)
Lemma selectNext_mono {St A} (sel : WalkItem → option A) (ops : WalkerOps St) r fn :
  ∀ st x, selectNext sel ops r fn st = Some x → selectNext sel ops r (S fn) st = Some x.
Proof.
  induction fn as [|fn IH]; intros st x; [done|].
  intros H. cbn [selectNext] in H |- *.
  destruct (wStep ops r st) as [st1 [err|y]]; [done|].
  destruct (sel y); [done|]. by apply IH.
Qed.

Lemma drain_mono_next {H A} (next1 next2 : H → option (H * (error + A))) :
  (∀ h x, next1 h = Some x → next2 h = Some x) →
  ∀ fd h R, drain next1 fd h = Some R → drain next2 fd h = Some R.
Proof.
  intros Hm. induction fd as [|fd IH]; intros h R; [done|].
  cbn [drain]. destruct (next1 h) as [[h1 res]|] eqn:E; cbn; [|done].
  rewrite (Hm _ _ E). cbn. destruct res as [err|x]; [done|].
  destruct (drain next1 fd h1) as [[[xs e] h2]|] eqn:E1; cbn; [|done].
  by rewrite (IH _ _ E1).
Qed.

Lemma drain_S {H A} (next : H → option (H * (error + A))) fd h :
  drain next (S fd) h
  = '(h1, res) ← next h;
    match res with
    | inl err => Some ([], err, h1)
    | inr x => '(xs, err, h2) ← drain next fd h1; Some (x :: xs, err, h2)
    end.
Proof. reflexivity. Qed.

(** Draining a [Next] loop gives the items of the walk that [sel]
    accepts, in the order of the walk, and ends with the error that ended
    the walk, in the state the walk ended in. *)
Lemma drain_selectNext_walk {St A} (sel : WalkItem → option A) (ops : WalkerOps St) r :
  ∀ items n st e st' fn fd,
    walk ops r n st = Some (items, e, st') →
    (length items < fn)%nat → (length items < fd)%nat →
    drain (selectNext sel ops r fn) fd st = Some (omap sel items, e, st').
Proof.
  induction items as [|x xs IH]; intros n st e st' fn fd Hw Hfn Hfd.
  - destruct n as [|n]; [done|]. cbn [walk] in Hw.
    destruct fn as [|fn]; [lia|]. destruct fd as [|fd]; [lia|].
    cbn [drain selectNext].
    destruct (wStep ops r st) as [st1 [err|y]].
    + injection Hw as <- <-. done.
    + by destruct (walk ops r n st1) as [[[? ?] ?]|].
  - destruct n as [|n]; [done|]. cbn [walk] in Hw.
    destruct fn as [|fn]; [lia|]. destruct fd as [|fd]; [lia|].
    cbn [length] in Hfn, Hfd.
    destruct (wStep ops r st) as [st1 [err|y]] eqn:Hstep; [done|].
    destruct (walk ops r n st1) as [[[ys e1] st2]|] eqn:Hw1; [|done].
    injection Hw as -> -> -> ->.
    cbn [omap list_omap].
    assert (selectNext sel ops r (S fn) st
            = match sel x with
              | Some a => Some (st1, inr a)
              | None => selectNext sel ops r fn st1
              end) as Hnx by (cbn [selectNext]; by rewrite Hstep).
    remember (selectNext sel ops r (S fn)) as nx eqn:Enx.
    rewrite drain_S, Hnx. destruct (sel x) as [a|] eqn:Hsel.
    + cbn. subst nx. rewrite (IH n st1 e st' (S fn) fd Hw1) by lia. done.
    + pose proof (IH n st1 e st' fn (S fd) Hw1 ltac:(lia) ltac:(lia)) as Hd.
      rewrite drain_S in Hd.
      destruct (selectNext sel ops r fn st1) as [[st3 [err|a]]|]; cbn in Hd |- *;
        [done| |done].
      destruct (drain (selectNext sel ops r fn) fd st3) as [[[zs e3] st4]|] eqn:Hd3;
        cbn in Hd; [|done].
      subst nx.
      erewrite (drain_mono_next _ _ (selectNext_mono sel ops r fn)) by exact Hd3.
      done.
Qed.

(** [FileIter.Next] and [TreeIter.Next] are that loop on the walker of the
    iterator, which stays where it is on the heap. *)
Lemma FileIter_Next_selectNext {St} (ops : WalkerOps St) fuel :
  ∀ (h : gmap loc (FileIter St)) i it,
    h !! i = Some it →
    FileIter_Next ops fuel h i
    = (λ x, (<[i := mkFileIter (mkTreeWalker x.1 (w_r (fw it)) (w_t (fw it))
                                             (wClosed (fw it)))]> h, x.2))
        <$> selectNext fileOf ops (w_r (fw it)) fuel (wSt (fw it)).
Proof.
  induction fuel as [|fuel IH]; intros h i it Hit; [done|].
  cbn [FileIter_Next selectNext]. rewrite Hit. cbn [mbind option_bind].
  unfold TreeWalker_Next. destruct (wStep ops (w_r (fw it)) (wSt (fw it))) as [st1 res].
  destruct res as [err|[[name e] obj]]; [done|].
  destruct obj; cbn [fileOf]; try done.
  all: rewrite (IH _ i _ (lookup_insert_eq _ _ _)); cbn [fw w_r w_t wClosed wSt];
    destruct (selectNext _ _ _ _ _) as [[? ?]|]; cbn; [by rewrite insert_insert_eq|done].
Qed.

Lemma TreeIter_Next_selectNext {St} (ops : WalkerOps St) fuel :
  ∀ (h : gmap loc (TreeIter St)) i it,
    h !! i = Some it →
    TreeIter_Next ops fuel h i
    = (λ x, (<[i := mkTreeIter (mkTreeWalker x.1 (w_r (tw it)) (w_t (tw it))
                                             (wClosed (tw it)))]> h, x.2))
        <$> selectNext treeOf ops (w_r (tw it)) fuel (wSt (tw it)).
Proof.
  induction fuel as [|fuel IH]; intros h i it Hit; [done|].
  cbn [TreeIter_Next selectNext]. rewrite Hit. cbn [mbind option_bind].
  unfold TreeWalker_Next. destruct (wStep ops (w_r (tw it)) (wSt (tw it))) as [st1 res].
  destruct res as [err|[[name e] obj]]; [done|].
  destruct obj; cbn [treeOf]; try done.
  all: rewrite (IH _ i _ (lookup_insert_eq _ _ _)); cbn [tw w_r w_t wClosed wSt];
    destruct (selectNext _ _ _ _ _) as [[? ?]|]; cbn; [by rewrite insert_insert_eq|done].
Qed.

(** Draining on the heap is draining on the walker's state. *)
Lemma drain_on_heap {St Cell A} (mk : St → Cell) (i : loc)
    (nextH : gmap loc Cell → option (gmap loc Cell * (error + A)))
    (nextP : St → option (St * (error + A))) :
  (∀ h st, h !! i = Some (mk st) →
     nextH h = (λ x, (<[i := mk x.1]> h, x.2)) <$> nextP st) →
  ∀ fd h st items e st',
    h !! i = Some (mk st) →
    drain nextP fd st = Some (items, e, st') →
    drain nextH fd h = Some (items, e, <[i := mk st']> h).
Proof.
  intros Hn. induction fd as [|fd IH]; intros h st items e st' Hi; [done|].
  cbn [drain]. rewrite (Hn h st Hi).
  destruct (nextP st) as [[st1 [err|a]]|]; cbn; [| |done].
  - by intros [= <- <- <-].
  - destruct (drain nextP fd st1) as [[[xs e1] st2]|] eqn:E; cbn; [|done].
    intros [= <- <- <-].
    rewrite (IH _ st1 xs e1 st2 (lookup_insert_eq _ _ _) E). cbn.
    by rewrite insert_insert_eq.
Qed.

Lemma drain_FileIter_walk {St} (ops : WalkerOps St) (h : gmap loc (FileIter St))
    i it n items e st' fuel :
  h !! i = Some it →
  walk ops (w_r (fw it)) n (wSt (fw it)) = Some (items, e, st') →
  (length items < fuel)%nat →
  drain (λ hp, FileIter_Next ops fuel hp i) fuel h
  = Some (omap fileOf items, e,
          <[i := mkFileIter (mkTreeWalker st' (w_r (fw it)) (w_t (fw it))
                                          (wClosed (fw it)))]> h).
Proof.
  intros Hi Hw Hf.
  apply (drain_on_heap
           (λ st, mkFileIter (mkTreeWalker st (w_r (fw it)) (w_t (fw it)) (wClosed (fw it))))
           i _ (selectNext fileOf ops (w_r (fw it)) fuel)) with (st := wSt (fw it)).
  - intros h1 st Hst. by rewrite (FileIter_Next_selectNext ops fuel h1 i _ Hst).
  - rewrite Hi. by destruct it as [[]].
  - by eapply drain_selectNext_walk.
Qed.

Lemma drain_TreeIter_walk {St} (ops : WalkerOps St) (h : gmap loc (TreeIter St))
    i it n items e st' fuel :
  h !! i = Some it →
  walk ops (w_r (tw it)) n (wSt (tw it)) = Some (items, e, st') →
  (length items < fuel)%nat →
  drain (λ hp, TreeIter_Next ops fuel hp i) fuel h
  = Some (omap treeOf items, e,
          <[i := mkTreeIter (mkTreeWalker st' (w_r (tw it)) (w_t (tw it))
                                          (wClosed (tw it)))]> h).
Proof.
  intros Hi Hw Hf.
  apply (drain_on_heap
           (λ st, mkTreeIter (mkTreeWalker st (w_r (tw it)) (w_t (tw it)) (wClosed (tw it))))
           i _ (selectNext treeOf ops (w_r (tw it)) fuel)) with (st := wSt (tw it)).
  - intros h1 st Hst. by rewrite (TreeIter_Next_selectNext ops fuel h1 i _ Hst).
  - rewrite Hi. by destruct it as [[]].
  - by eapply drain_selectNext_walk.
Qed.

(** X16. The Files a FileIter returns by repeated [Next] are the blobs
    among the items its walker yields from where it stands, in the
    walker's order, each under the path the walker gives it and with the
    mode of its entry; trees and other objects are passed over.  The
    sequence ends with the error that ends the walk, and the iterator is
    left on the heap with its walker in the state the walk ended in. *)
Theorem FileIter_yields_the_blobs_of_the_walk {St : Type} (ops : WalkerOps St)
    (h : gmap loc (FileIter St)) (i : loc) (it : FileIter St)
    (n : nat) (items : list WalkItem) (e : error) (st' : St) (fuel : nat) :
  h !! i = Some it →
  walk ops (w_r (fw it)) n (wSt (fw it)) = Some (items, e, st') →
  (length items < fuel)%nat →
  drain (λ hp, FileIter_Next ops fuel hp i) fuel h
  = Some (omap fileOf items, e,
          <[i := mkFileIter (mkTreeWalker st' (w_r (fw it)) (w_t (fw it))
                                          (wClosed (fw it)))]> h).
Proof.
  intros Hi Hw Hf.
  apply (drain_on_heap
           (λ st, mkFileIter (mkTreeWalker st (w_r (fw it)) (w_t (fw it)) (wClosed (fw it))))
           i _ (selectNext fileOf ops (w_r (fw it)) fuel)) with (st := wSt (fw it)).
  - intros h1 st Hst. by rewrite (FileIter_Next_selectNext ops fuel h1 i _ Hst).
  - rewrite Hi. by destruct it as [[]].
  - by eapply drain_selectNext_walk.
Qed.

Lemma FileIter_yields_the_blobs_of_the_walk_witness :
  let it := mkFileIter (NewTreeWalker specWalker sampleStore sampleWalkRoot) in
  let h : gmap loc (FileIter (list Frame)) := {[ 0%nat := it ]} in
  ∃ hfin,
    drain (λ hp, FileIter_Next specWalker 10 hp 0%nat) 10 h
    = Some ([mkFile "dir/inner.txt" 33188 (Blob_Decode sampleBlob)], EOF, hfin).
Proof.
  intros it h.
  destruct (walk specWalker sampleStore 10 (wInit specWalker sampleStore sampleWalkRoot))
    as [[[items e] st']|] eqn:E; [|by vm_compute in E].
  pose proof E as E2. vm_compute in E2. injection E2 as <- <- <-.
  eexists.
  rewrite (FileIter_yields_the_blobs_of_the_walk specWalker h 0%nat it
             10 _ _ _ 10 eq_refl E ltac:(cbn; lia)).
  reflexivity.
Defined.

(** X17. The Trees a TreeIter returns by repeated [Next] are the trees
    among the items its walker yields from where it stands, in the
    walker's order; blobs and other objects are passed over, and the
    sequence ends with the error that ends the walk. *)
Theorem TreeIter_yields_the_trees_of_the_walk {St : Type} (ops : WalkerOps St)
    (h : gmap loc (TreeIter St)) (i : loc) (it : TreeIter St)
    (n : nat) (items : list WalkItem) (e : error) (st' : St) (fuel : nat) :
  h !! i = Some it →
  walk ops (w_r (tw it)) n (wSt (tw it)) = Some (items, e, st') →
  (length items < fuel)%nat →
  drain (λ hp, TreeIter_Next ops fuel hp i) fuel h
  = Some (omap treeOf items, e,
          <[i := mkTreeIter (mkTreeWalker st' (w_r (tw it)) (w_t (tw it))
                                          (wClosed (tw it)))]> h).
Proof.
  intros Hi Hw Hf.
  apply (drain_on_heap
           (λ st, mkTreeIter (mkTreeWalker st (w_r (tw it)) (w_t (tw it)) (wClosed (tw it))))
           i _ (selectNext treeOf ops (w_r (tw it)) fuel)) with (st := wSt (tw it)).
  - intros h1 st Hst. by rewrite (TreeIter_Next_selectNext ops fuel h1 i _ Hst).
  - rewrite Hi. by destruct it as [[]].
  - by eapply drain_selectNext_walk.
Qed.

Lemma TreeIter_yields_the_trees_of_the_walk_witness :
  let it := mkTreeIter (NewTreeWalker specWalker sampleStore sampleWalkRoot) in
  let h : gmap loc (TreeIter (list Frame)) := {[ 0%nat := it ]} in
  ∃ hfin,
    drain (λ hp, TreeIter_Next specWalker 10 hp 0%nat) 10 h
    = Some ([dTree (Decode emptyTree sampleDir)], EOF, hfin).
Proof.
  intros it h.
  destruct (walk specWalker sampleStore 10 (wInit specWalker sampleStore sampleWalkRoot))
    as [[[items e] st']|] eqn:E; [|by vm_compute in E].
  pose proof E as E2. vm_compute in E2. injection E2 as <- <- <-.
  eexists.
  rewrite (TreeIter_yields_the_trees_of_the_walk specWalker h 0%nat it
             10 _ _ _ 10 eq_refl E ltac:(cbn; lia)).
  reflexivity.
Defined.

(** X18. [Tree.Files] and [NewTreeIter] put a new iterator at an address
    that was not in use and leave every other iterator as it was; the new
    iterator starts at the root: draining it gives the blobs, respectively
    the trees, of the whole walk of the tree. *)
Theorem new_iterators_start_at_the_root {St : Type} (ops : WalkerOps St)
    (hf : gmap loc (FileIter St)) (ht : gmap loc (TreeIter St))
    (r : ObjectStorage) (t : Tree)
    (n : nat) (items : list WalkItem) (e : error) (st' : St) (fuel : nat) :
  walk ops r n (wInit ops r t) = Some (items, e, st') →
  (length items < fuel)%nat →
  (let h0 := (Tree_Files ops hf r t).1 in
   let i := (Tree_Files ops hf r t).2 in
   hf !! i = None
   ∧ (∀ l, l ≠ i → h0 !! l = hf !! l)
   ∧ drain (λ hp, FileIter_Next ops fuel hp i) fuel h0
     = Some (omap fileOf items, e, <[i := mkFileIter (mkTreeWalker st' r t 0)]> hf))
  ∧ (let h0 := (NewTreeIter ops ht r t).1 in
     let i := (NewTreeIter ops ht r t).2 in
     ht !! i = None
     ∧ (∀ l, l ≠ i → h0 !! l = ht !! l)
     ∧ drain (λ hp, TreeIter_Next ops fuel hp i) fuel h0
       = Some (omap treeOf items, e, <[i := mkTreeIter (mkTreeWalker st' r t 0)]> ht)).
Proof.
  intros Hw Hf. split; cbn zeta; unfold Tree_Files, NewFileIter, NewTreeIter; cbn [fst snd].
  - split; [apply fresh_loc_unused|]. split; [intros l Hl; by rewrite lookup_insert_ne|].
    erewrite drain_FileIter_walk; [|apply lookup_insert_eq|exact Hw|exact Hf].
    cbn. by rewrite insert_insert_eq.
  - split; [apply fresh_loc_unused|]. split; [intros l Hl; by rewrite lookup_insert_ne|].
    erewrite drain_TreeIter_walk; [|apply lookup_insert_eq|exact Hw|exact Hf].
    cbn. by rewrite insert_insert_eq.
Qed.

Lemma new_iterators_start_at_the_root_witness :
  let used : gmap loc (FileIter (list Frame)) :=
    {[ 0%nat := mkFileIter (mkTreeWalker [] sampleStore sampleWalkRoot 0) ]} in
  (Tree_Files specWalker used sampleStore sampleWalkRoot).2 = 1%nat
  ∧ (Tree_Files specWalker used sampleStore sampleWalkRoot).1 !! 0%nat = used !! 0%nat
  ∧ ∃ hfin,
      drain (λ hp, FileIter_Next specWalker 10 hp 1%nat) 10
            (Tree_Files specWalker used sampleStore sampleWalkRoot).1
      = Some ([mkFile "dir/inner.txt" 33188 (Blob_Decode sampleBlob)], EOF, hfin).
Proof.
  intros used.
  destruct (walk specWalker sampleStore 10 (wInit specWalker sampleStore sampleWalkRoot))
    as [[[items e] st']|] eqn:E; [|by vm_compute in E].
  pose proof E as E2. vm_compute in E2. injection E2 as <- <- <-.
  destruct (proj1 (new_iterators_start_at_the_root specWalker used ∅
                     sampleStore sampleWalkRoot 10 _ _ _ 10 E ltac:(cbn; lia)))
    as (_ & Hothers & Hdrain).
  split; [reflexivity|]. split; [by apply Hothers|].
  eexists. exact Hdrain.
Defined.

(** X19. [FileIter.ForEach] hands the callback the files of the whole tree,
    from the root, wherever the receiver stands: when the walk of the
    receiver's tree from its root ends, the call returns what the
    push-style traversal of the blobs of that walk returns, and the
    receiver is as it was. *)
Theorem FileIter_ForEach_walks_from_the_root {St C : Type} (ops : WalkerOps St)
    (fuel : nat) (h : gmap loc (FileIter St)) (iter : loc) (it : FileIter St)
    (cb : C → File → C * option error) (c : C)
    (n : nat) (items : list WalkItem) (e : error) (st' : St) :
  h !! iter = Some it →
  walk ops (w_r (fw it)) n (wInit ops (w_r (fw it)) (w_t (fw it))) = Some (items, e, st') →
  (length items < fuel)%nat →
  ∃ h2, FileIter_ForEach ops fuel h iter cb c
        = Some (h2, (pushAll cb c (omap fileOf items) e).1,
                    (pushAll cb c (omap fileOf items) e).2)
      ∧ h2 !! iter = Some it.
Proof.
  intros Hit Hw Hf. pose proof (fresh_loc_unused h) as Hfresh.
  assert (fresh (dom h) ≠ iter) as Hne by (intros Heq; rewrite Heq in Hfresh; congruence).
  unfold FileIter_ForEach. rewrite Hit. cbn [mbind option_bind].
  pose proof (drain_FileIter_walk ops
                (<[fresh (dom h) :=
                     mkFileIter (NewTreeWalker ops (w_r (fw it)) (w_t (fw it)))]> h)
                (fresh (dom h)) _ n items e st' fuel
                (lookup_insert_eq _ _ _) Hw Hf) as Hd.
  destruct (forEachLoop_pushes _ cb fuel _ c _ _ _ Hd) as [h1 Hloop].
  pose proof (forEachLoop_invariant _ cb (advanced fw (fresh (dom h)))
                (advanced_trans fw _)
                (λ hp hp' r, FileIter_Next_advanced ops fuel hp _ hp' r)
                _ _ _ _ _ _ Hloop) as [Ho (it0 & it1 & H0 & H1 & _)].
  rewrite Hloop. cbn [mbind option_bind]. unfold FileIter_Close. rewrite H1.
  cbn [mbind option_bind]. eexists. split; [done|].
  by rewrite lookup_insert_ne, Ho, lookup_insert_ne.
Qed.

Lemma FileIter_ForEach_walks_from_the_root_witness :
  let it := mkFileIter (mkTreeWalker [] sampleStore sampleWalkRoot 0) in
  let h : gmap loc (FileIter (list Frame)) := {[ 0%nat := it ]} in
  FileIter_Next specWalker 10 h 0%nat = Some (h, inl EOF)
  ∧ ∃ h2, FileIter_ForEach specWalker 10 h 0%nat recordName []
          = Some (h2, ["dir/inner.txt"%string], None)
        ∧ h2 !! 0%nat = Some it.
Proof.
  intros it h. split; [reflexivity|].
  destruct (walk specWalker sampleStore 10 (wInit specWalker sampleStore sampleWalkRoot))
    as [[[items e] st']|] eqn:E; [|by vm_compute in E].
  pose proof E as E2. vm_compute in E2. injection E2 as <- <- <-.
  destruct (FileIter_ForEach_walks_from_the_root specWalker 10 h 0%nat it recordName []
              10 _ _ _ eq_refl E ltac:(cbn; lia)) as (h2 & HF & Hr).
  exists h2. split; [exact HF|exact Hr].
Defined.

(** X20. [TreeIter.ForEach] goes on from where the receiver stands: when
    the walk from the state of the receiver's walker ends, the call returns
    what the push-style traversal of the trees of that walk returns, so
    trees the receiver has passed already are not handed to the callback;
    the receiver's walker is closed once more, and no other iterator
    changes. *)
Theorem TreeIter_ForEach_goes_on_from_the_receiver {St C : Type} (ops : WalkerOps St)
    (fuel : nat) (h : gmap loc (TreeIter St)) (iter : loc) (it : TreeIter St)
    (cb : C → Tree → C * option error) (c : C)
    (n : nat) (items : list WalkItem) (e : error) (st' : St) :
  h !! iter = Some it →
  walk ops (w_r (tw it)) n (wSt (tw it)) = Some (items, e, st') →
  (length items < fuel)%nat →
  ∃ h2 wfin, TreeIter_ForEach ops fuel h iter cb c
             = Some (h2, (pushAll cb c (omap treeOf items) e).1,
                         (pushAll cb c (omap treeOf items) e).2)
      ∧ h2 !! iter = Some (mkTreeIter wfin)
      ∧ wClosed wfin = S (wClosed (tw it))
      ∧ (∀ l, l ≠ iter → h2 !! l = h !! l).
Proof.
  intros Hit Hw Hf. unfold TreeIter_ForEach.
  pose proof (drain_TreeIter_walk ops h iter it n items e st' fuel Hit Hw Hf) as Hd.
  destruct (forEachLoop_pushes _ cb fuel _ c _ _ _ Hd) as [h1 Hloop].
  pose proof (forEachLoop_invariant _ cb (advanced tw iter)
                (advanced_trans tw _)
                (λ hp hp' r, TreeIter_Next_advanced ops fuel hp _ hp' r)
                _ _ _ _ _ _ Hloop) as [Ho (it0 & it1 & H0 & H1 & _ & _ & Hc)].
  rewrite Hloop. cbn [mbind option_bind]. unfold TreeIter_Close. rewrite H1.
  cbn [mbind option_bind]. eexists _, _. split; [done|].
  rewrite lookup_insert_eq. split; [done|]. cbn [TreeWalker_Close wClosed tw].
  rewrite Hit in H0. injection H0 as <-. split; [by rewrite Hc|].
  intros l Hl. by rewrite lookup_insert_ne, Ho.
Qed.

Lemma TreeIter_ForEach_goes_on_from_the_receiver_witness :
  let fresh_it := mkTreeIter (NewTreeWalker specWalker sampleStore sampleWalkRoot) in
  let spent_it := mkTreeIter (mkTreeWalker [] sampleStore sampleWalkRoot 0) in
  let hfresh : gmap loc (TreeIter (list Frame)) := {[ 0%nat := fresh_it ]} in
  let hspent : gmap loc (TreeIter (list Frame)) := {[ 0%nat := spent_it ]} in
  (∃ h2 wfin, TreeIter_ForEach specWalker 10 hfresh 0%nat recordHash []
              = Some (h2, [hashOfNat 2], None)
            ∧ h2 !! 0%nat = Some (mkTreeIter wfin) ∧ wClosed wfin = 1%nat)
  ∧ (∃ h2 wfin, TreeIter_ForEach specWalker 10 hspent 0%nat recordHash []
                = Some (h2, [], None)
              ∧ h2 !! 0%nat = Some (mkTreeIter wfin) ∧ wClosed wfin = 1%nat).
Proof.
  intros fresh_it spent_it hfresh hspent. split.
  - destruct (walk specWalker sampleStore 10 (wInit specWalker sampleStore sampleWalkRoot))
      as [[[items e] st']|] eqn:E; [|by vm_compute in E].
    pose proof E as E2. vm_compute in E2. injection E2 as <- <- <-.
    destruct (TreeIter_ForEach_goes_on_from_the_receiver specWalker 10
                hfresh 0%nat fresh_it recordHash []
                10 _ _ _ eq_refl E ltac:(cbn; lia)) as (h2 & wfin & HF & Hl & Hc & _).
    exists h2, wfin. split; [exact HF|]. split; [exact Hl|exact Hc].
  - destruct (TreeIter_ForEach_goes_on_from_the_receiver specWalker 10
                hspent 0%nat spent_it recordHash []
                1 [] EOF [] eq_refl eq_refl ltac:(cbn; lia)) as (h2 & wfin & HF & Hl & Hc & _).
    exists h2, wfin. split; [exact HF|]. split; [exact Hl|exact Hc].
Defined.
